(** * Sudoku engine of [app.jsx]: shallow embedding and verified properties

    The development follows the source file top-down:
    - the board helpers ([getEmptyBoard], [isSafe]),
    - the randomized backtracking solver ([solveSudoku]),
    - the generators ([generateFullBoard], [generatePuzzle]),
    - the React component's state, read as a state machine whose
      transitions are the event handlers ([handleNumberInput],
      [handleErase], [checkCompletion], [startNewGame]).

    Conventions.  Cells hold JavaScript numbers that are always small
    non-negative integers, so they are [nat]; a board is an array of arrays,
    so it is a [list (list nat)] read with [cell] and written with
    [setCell].  All boards the program builds are 9x9 and all coordinates it
    uses are in range, so the JavaScript value [undefined] never appears; the
    model's out-of-range defaults are never relied upon (every theorem
    carries the range facts it needs).  The memo object is a [gmap] from the
    template-string key to the stored array. *)

From stdpp Require Import gmap strings list fin_maps pretty sorting.
From Stdlib Require Import Lia Permutation.

Local Open Scope nat_scope.

(* ------------------------------------------------------------------------- *)
(** ** Boards *)
(* ------------------------------------------------------------------------- *)

Definition BLANK : nat := 0.
Definition GRID_SIZE : nat := 9.

Abbreviation Board := (list (list nat)).

(** [Array.from({length: GRID_SIZE}, () => Array(GRID_SIZE).fill(BLANK))] *)
Definition getEmptyBoard : Board :=
  replicate GRID_SIZE (replicate GRID_SIZE BLANK).

(** [board[r][c]] *)
Definition cell (b : Board) (r c : nat) : nat := (b !!! r) !!! c.

(** [board[r][c] = v] *)
Definition setCell (b : Board) (r c v : nat) : Board :=
  alter (fun row => <[c := v]> row) r b.

(** [board.map(row => [...row])]: a fresh copy, equal as a value. *)
Definition copyBoard (b : Board) : Board := (fun row => row) <$> b.

Definition wfBoard (b : Board) : Prop :=
  length b = GRID_SIZE ∧ Forall (fun row => length row = GRID_SIZE) b.

(** The 81 coordinates in the order of the nested [for] loops. *)
Definition allCells : list (nat * nat) :=
  r ← seq 0 GRID_SIZE; (fun c => (r, c)) <$> seq 0 GRID_SIZE.

(* ------------------------------------------------------------------------- *)
(** ** [isSafe] *)
(* ------------------------------------------------------------------------- *)

(** Each [for] loop returns [false] at the first hit; [existsb] over the
    loop's index range is that early return. *)
Definition isSafe (board : Board) (row col num : nat) : bool :=
  if existsb (fun x => cell board row x =? num) (seq 0 GRID_SIZE) then false
  else if existsb (fun x => cell board x col =? num) (seq 0 GRID_SIZE) then false
  else
    let startRow := row - row mod 3 in
    let startCol := col - col mod 3 in
    if existsb (fun i =>
          existsb (fun j => cell board (i + startRow) (j + startCol) =? num)
                  (seq 0 3))
         (seq 0 3)
    then false
    else true.

(** The cells [isSafe] reads for [(row, col)]: its row, its column and its
    3x3 box.  The cell [(row, col)] itself is one of them. *)
Definition sameUnit (row col r c : nat) : Prop :=
  r = row ∨ c = col ∨ (r / 3 = row / 3 ∧ c / 3 = col / 3).

(** The reading of the contract that excludes the cell itself ("occurs
    elsewhere"), written after the specification's words so that it can be
    compared with what [isSafe] computes. *)
Definition occursElsewhere (board : Board) (row col num : nat) : Prop :=
  ∃ r c, r < GRID_SIZE ∧ c < GRID_SIZE ∧ (r, c) ≠ (row, col) ∧
         sameUnit row col r c ∧ cell board r c = num.

Definition occursInUnit (board : Board) (row col num : nat) : Prop :=
  ∃ r c, r < GRID_SIZE ∧ c < GRID_SIZE ∧
         sameUnit row col r c ∧ cell board r c = num.

(* ------------------------------------------------------------------------- *)
(** ** The random source *)
(* ------------------------------------------------------------------------- *)

(** [Math.random] is ambient state.  The program uses it in two ways only,
    and the model threads a source [g : G] through both:
    - [[1,...,9].sort(() => Math.random() - 0.5)]: a sort driven by a random
      comparator.  Whatever the engine's algorithm does with such a
      comparator, the array it leaves is a rearrangement of [1..9];
    - [Math.floor(Math.random() * GRID_SIZE)]: an index in [0, 8]. *)
Class RandomSource (G : Type) := {
  shuffle9 : G → list nat * G;
  randIndex : G → nat * G
}.

Definition digits : list nat := seq 1 GRID_SIZE.

(** What every source is known to satisfy. *)
Class RandomSourceLaws (G : Type) `{RandomSource G} : Prop := {
  shuffle9_perm : ∀ g : G, (shuffle9 g).1 ≡ₚ digits;
  randIndex_lt : ∀ g : G, (randIndex g).1 < GRID_SIZE
}.

(* ------------------------------------------------------------------------- *)
(** ** [solveSudoku] *)
(* ------------------------------------------------------------------------- *)

(** The two nested [for] loops stop at the first blank cell in row-major
    order (the body returns in every branch). *)
Definition findBlank (board : Board) : option (nat * nat) :=
  find (fun rc => cell board rc.1 rc.2 =? BLANK) allCells.

(** The [for (let num of nums)] loop at the blank cell [(row, col)].  [rec]
    is the recursive call; the board is one mutable object, so what the
    failed recursive call leaves in it is what the loop continues with. *)
Fixpoint tryNums {G : Type} (rec : Board → G → option (bool * Board * G))
    (row col : nat) (nums : list nat) (board : Board) (g : G)
    : option (bool * Board * G) :=
  match nums with
  | [] => Some (false, board, g)
  | num :: rest =>
      if isSafe board row col num then
        match rec (setCell board row col num) g with
        | None => None
        | Some (true, board', g') => Some (true, board', g')
        | Some (false, board', g') =>
            tryNums rec row col rest (setCell board' row col BLANK) g'
        end
      else tryNums rec row col rest board g
  end.

(** [fuel] bounds the recursion depth; [None] means the bound was hit.
    [solveSudoku_fuel_enough] below shows that one more than the number of
    blank cells is always enough. *)
Fixpoint solveSudoku {G : Type} `{RandomSource G} (fuel : nat)
    (board : Board) (g : G) : option (bool * Board * G) :=
  match fuel with
  | 0 => None
  | S fuel' =>
      match findBlank board with
      | Some (row, col) =>
          let '(nums, g1) := shuffle9 g in
          tryNums (solveSudoku fuel') row col nums board g1
      | None => Some (true, board, g)
      end
  end.

Definition solveFuel : nat := S (GRID_SIZE * GRID_SIZE).

(* ------------------------------------------------------------------------- *)
(** ** [generateFullBoard] and [generatePuzzle] *)
(* ------------------------------------------------------------------------- *)

(** [board[0] = firstRow] on the empty board. *)
Definition seedBoard (firstRow : list nat) : Board :=
  <[0 := firstRow]> getEmptyBoard.

(** The value of [solveSudoku(board)] is dropped; the board is returned
    whatever it was. *)
Definition generateFullBoard {G : Type} `{RandomSource G} (g : G)
    : option (Board * G) :=
  let '(firstRow, g1) := shuffle9 g in
  match solveSudoku solveFuel (seedBoard firstRow) g1 with
  | Some (_, board, g2) => Some (board, g2)
  | None => None
  end.

(** ['Easy' ? 30 : 'Medium' ? 45 : 55] *)
Definition removalBudget (difficulty : string) : nat :=
  if String.eqb difficulty "Easy" then 30
  else if String.eqb difficulty "Medium" then 45
  else 55.

(** The [while (attempts > 0)] loop.  It has no bound of its own (it runs
    until the source has hit enough non-blank cells), so the model takes the
    number of iterations allowed as [fuel]. *)
Fixpoint removeCells {G : Type} `{RandomSource G} (fuel attempts : nat)
    (puzzle : Board) (g : G) {struct fuel} : option (Board * G) :=
  if attempts =? 0 then Some (puzzle, g)
  else
    match fuel with
    | 0 => None
    | S fuel' =>
        let '(row, g1) := randIndex g in
        let '(col, g2) := randIndex g1 in
        if negb (cell puzzle row col =? BLANK)
        then removeCells fuel' (attempts - 1) (setCell puzzle row col BLANK) g2
        else removeCells fuel' attempts puzzle g2
    end.

Definition generatePuzzle {G : Type} `{RandomSource G} (fuel : nat)
    (difficulty : string) (g : G) : option (Board * Board * G) :=
  match generateFullBoard g with
  | None => None
  | Some (solution, g1) =>
      let puzzle := copyBoard solution in
      let attempts := removalBudget difficulty in
      match removeCells fuel attempts puzzle g1 with
      | None => None
      | Some (puzzle', g2) => Some (solution, puzzle', g2)
      end
  end.

(** Number of non-blank cells of a board. *)
Definition countNonBlank (b : Board) : nat :=
  length (filter (fun rc => cell b rc.1 rc.2 ≠ BLANK) allCells).

Definition countBlank (b : Board) : nat :=
  length (filter (fun rc => cell b rc.1 rc.2 = BLANK) allCells).

(* ------------------------------------------------------------------------- *)
(** ** Valid boards *)
(* ------------------------------------------------------------------------- *)

Definition rowCells (b : Board) (r : nat) : list nat :=
  (fun c => cell b r c) <$> seq 0 GRID_SIZE.

Definition colCells (b : Board) (c : nat) : list nat :=
  (fun r => cell b r c) <$> seq 0 GRID_SIZE.

(** Box [k] (0..8, row-major) has its corner at [(3 * (k / 3), 3 * (k mod 3))];
    [boxPos k i] is its [i]-th cell. *)
Definition boxPos (k i : nat) : nat * nat :=
  (3 * (k / 3) + i / 3, 3 * (k mod 3) + i mod 3).

Definition boxCells (b : Board) (k : nat) : list nat :=
  (fun i => cell b (boxPos k i).1 (boxPos k i).2) <$> seq 0 GRID_SIZE.

(** Every row, column and box holds each of 1..9 exactly once. *)
Definition validSolution (b : Board) : Prop :=
  wfBoard b ∧
  ∀ k, k < GRID_SIZE →
    rowCells b k ≡ₚ digits ∧ colCells b k ≡ₚ digits ∧ boxCells b k ≡ₚ digits.

(* ------------------------------------------------------------------------- *)
(** ** The component state and its handlers *)
(* ------------------------------------------------------------------------- *)

(** The [useState] cells of [App] that the handlers read or write.  The
    [difficulty] cell only feeds [startNewGame]'s default argument and is
    passed explicitly instead. *)
Record Session := mkSession {
  initialBoard : Board;
  board : Board;
  solution : Board;
  selectedCell : option (nat * nat);
  memos : gmap string (list nat);
  isMemoMode : bool;
  mistakes : nat;
  isComplete : bool
}.

(** The template string [`${r}-${c}`]. *)
Definition memoKey (r c : nat) : string := pretty r +:+ "-" +:+ pretty c.

(** [currentMemos.includes(num)] *)
Definition includes (l : list nat) (num : nat) : bool :=
  existsb (fun n => n =? num) l.

(** [Array.prototype.sort()] without a comparator orders the elements by
    their string forms, compared by code units, and is stable.  Insertion
    from the left, after the elements that do not compare greater, computes
    that order. *)
Definition jsLess (x y : nat) : bool := String.ltb (pretty x) (pretty y).

Fixpoint jsInsert (x : nat) (l : list nat) : list nat :=
  match l with
  | [] => [x]
  | y :: l' => if jsLess x y then x :: y :: l' else y :: jsInsert x l'
  end.

Definition jsSort (l : list nat) : list nat :=
  foldl (fun acc x => jsInsert x acc) [] l.

(** [checkCompletion(currentBoard, solutionBoard)]: [true] when the loops
    run through without the early [return], i.e. when [setIsComplete(true)]
    is reached. *)
Definition checkCompletion (currentBoard solutionBoard : Board) : bool :=
  forallb (fun i =>
      forallb (fun j => cell currentBoard i j =? cell solutionBoard i j)
              (seq 0 GRID_SIZE))
    (seq 0 GRID_SIZE).

Definition handleNumberInput (s : Session) (num : nat) : Session :=
  if isComplete s then s
  else
    match selectedCell s with
    | None => s
    | Some (r, c) =>
        if negb (cell (initialBoard s) r c =? BLANK) then s
        else if isMemoMode s then
          let key := memoKey r c in
          let currentMemos := default [] (memos s !! key) in
          let newMemos :=
            if includes currentMemos num
            then filter (fun n => n ≠ num) currentMemos
            else jsSort (currentMemos ++ [num]) in
          mkSession (initialBoard s) (board s) (solution s) (selectedCell s)
                    (<[key := newMemos]> (memos s))
                    (isMemoMode s) (mistakes s) (isComplete s)
        else
          let newBoard := copyBoard (board s) in
          if cell newBoard r c =? num then
            let newBoard := setCell newBoard r c BLANK in
            mkSession (initialBoard s) newBoard (solution s) (selectedCell s)
                      (memos s) (isMemoMode s) (mistakes s)
                      (checkCompletion newBoard (solution s))
          else
            let newBoard := setCell newBoard r c num in
            if negb (num =? cell (solution s) r c) then
              mkSession (initialBoard s) newBoard (solution s) (selectedCell s)
                        (memos s) (isMemoMode s) (S (mistakes s))
                        (checkCompletion newBoard (solution s))
            else
              let key := memoKey r c in
              mkSession (initialBoard s) newBoard (solution s) (selectedCell s)
                        (if memos s !! key is Some _
                         then delete key (memos s) else memos s)
                        (isMemoMode s) (mistakes s)
                        (checkCompletion newBoard (solution s))
    end.

Definition handleErase (s : Session) : Session :=
  if isComplete s then s
  else
    match selectedCell s with
    | None => s
    | Some (r, c) =>
        if negb (cell (initialBoard s) r c =? BLANK) then s
        else
          let newBoard := setCell (copyBoard (board s)) r c BLANK in
          mkSession (initialBoard s) newBoard (solution s) (selectedCell s)
                    (memos s) (isMemoMode s) (mistakes s) (isComplete s)
    end.

(** [isNumberComplete(num)] *)
Definition isNumberComplete (s : Session) (num : nat) : bool :=
  length (filter (fun rc => cell (board s) rc.1 rc.2 = num) allCells) =? 9.

Inductive Direction := ArrowUp | ArrowDown | ArrowLeft | ArrowRight.

(** What the user can do between two renders. *)
Inductive Event :=
  | ClickCell (r c : nat)      (* a cell's [onClick] *)
  | NumberInput (num : nat)    (* a number-pad button or a digit key *)
  | EraseInput                 (* the erase button, Backspace or Delete *)
  | MemoToggle                 (* the memo button or the M key *)
  | ArrowKey (d : Direction).

(** Cells are rendered for the indices of a 9x9 board; buttons and digit
    keys carry 1..9. *)
Definition validEvent (e : Event) : Prop :=
  match e with
  | ClickCell r c => r < GRID_SIZE ∧ c < GRID_SIZE
  | NumberInput num => 1 ≤ num ≤ 9
  | _ => True
  end.

Definition setSelectedCell (s : Session) (rc : nat * nat) : Session :=
  mkSession (initialBoard s) (board s) (solution s) (Some rc)
            (memos s) (isMemoMode s) (mistakes s) (isComplete s).

Definition toggleMemoMode (s : Session) : Session :=
  mkSession (initialBoard s) (board s) (solution s) (selectedCell s)
            (memos s) (negb (isMemoMode s)) (mistakes s) (isComplete s).

(** The arrow branch of [handleKeyDown]; the handler returns at once when
    the game is complete. *)
Definition handleArrow (s : Session) (d : Direction) : Session :=
  if isComplete s then s
  else
    match selectedCell s with
    | None => s
    | Some (r, c) =>
        setSelectedCell s
          match d with
          | ArrowUp => (Nat.max 0 (r - 1), c)
          | ArrowDown => (Nat.min 8 (r + 1), c)
          | ArrowLeft => (r, Nat.max 0 (c - 1))
          | ArrowRight => (r, Nat.min 8 (c + 1))
          end
    end.

Definition handleEvent (s : Session) (e : Event) : Session :=
  match e with
  | ClickCell r c => setSelectedCell s (r, c)
  | NumberInput num => handleNumberInput s num
  | EraseInput => handleErase s
  | MemoToggle => toggleMemoMode s
  | ArrowKey d => handleArrow s d
  end.

Definition runEvents (s : Session) (es : list Event) : Session :=
  foldl handleEvent s es.

(** The [useState] initial values.  They are a placeholder: the mount
    effect replaces them by the first game before any event is handled, so
    no handler ever runs on this state. *)
Definition mountState : Session :=
  mkSession getEmptyBoard getEmptyBoard getEmptyBoard None ∅ false 0 false.

(** The state [startNewGame] installs from a generated pair.  It writes
    every cell except [isMemoMode], which keeps its value. *)
Definition newSession (memoMode : bool) (newSolution newPuzzle : Board)
    : Session :=
  mkSession (copyBoard newPuzzle) (copyBoard newPuzzle) newSolution None
            ∅ memoMode 0 false.

Definition startNewGame {G : Type} `{RandomSource G} (fuel : nat)
    (diff : string) (memoMode : bool) (g : G) : option (Session * G) :=
  match generatePuzzle fuel diff g with
  | None => None
  | Some (newSolution, newPuzzle, g') =>
      Some (newSession memoMode newSolution newPuzzle, g')
  end.

Definition difficulties : list string := ["Easy"; "Medium"; "Hard"].

(** The states a session goes through: the first game is started by the
    mount effect with memo mode off; later games are started by the reset
    button, the overlay button or the difficulty selector and keep the memo
    mode; in between, the events above. *)
Inductive reachable {G : Type} `{RandomSource G} : Session → Prop :=
  | reach_mount fuel (g g' : G) s :
      startNewGame fuel "Easy" (isMemoMode mountState) g = Some (s, g') →
      reachable s
  | reach_newGame fuel diff (g g' : G) s s' :
      reachable s →
      diff ∈ difficulties →
      startNewGame fuel diff (isMemoMode s) g = Some (s', g') →
      reachable s'
  | reach_event s e :
      reachable s →
      validEvent e →
      reachable (handleEvent s e).

(** The flags [getCellStyle] computes for the cell [(row, col)] before it
    picks colours: [isInitial], [isError] and [isCorrect]. *)
Definition cellIsInitial (s : Session) (row col : nat) : bool :=
  negb (cell (initialBoard s) row col =? BLANK).

Definition cellIsError (s : Session) (row col : nat) : bool :=
  negb (cellIsInitial s row col)
  && negb (cell (board s) row col =? BLANK)
  && negb (cell (board s) row col =? cell (solution s) row col).

Definition cellIsCorrect (s : Session) (row col : nat) : bool :=
  negb (cellIsInitial s row col)
  && negb (cell (board s) row col =? BLANK)
  && (cell (board s) row col =? cell (solution s) row col).

(** Number of cells currently shown as errors. *)
Definition countErrors (s : Session) : nat :=
  length (filter (fun rc => cellIsError s rc.1 rc.2 = true) allCells).

Definition isNumberInput (e : Event) : bool :=
  match e with NumberInput _ => true | _ => false end.

(* ------------------------------------------------------------------------- *)
(** ** The keyboard handler *)
(* ------------------------------------------------------------------------- *)

(** [e.key >= '1' && e.key <= '9'] compares strings, code unit by code
    unit. *)
Definition isDigitKey (key : string) : bool :=
  String.leb "1" key && String.leb key "9".

Definition digitOf (a : Ascii.ascii) : option nat :=
  let n := Ascii.nat_of_ascii a in
  if (48 <=? n) && (n <=? 57) then Some (n - 48) else None.

Fixpoint parseDigits (acc : nat) (k : string) : nat :=
  match k with
  | String a k' =>
      match digitOf a with
      | Some d => parseDigits (10 * acc + d) k'
      | None => acc
      end
  | EmptyString => acc
  end.

(** [parseInt(e.key)] for a key that does not start with white space, a
    sign or [0x]: the value of the leading run of decimal digits, [None]
    (NaN) when there is none.  The digit test lets through only strings
    whose first character is one of 1..9.  The value is exact; JavaScript
    rounds it to a double from 2^53 on (sixteen digits and more), which
    the model does not follow, so nothing below rests on the parsed
    value of a key of more than one character. *)
Definition parseInt (key : string) : option nat :=
  match key with
  | String a rest =>
      match digitOf a with
      | Some d => Some (parseDigits d rest)
      | None => None
      end
  | EmptyString => None
  end.

(** [handleKeyDown(e)] as a function of [e.key].  The source has one [if]
    per key after the early return; the tests exclude one another
    (proved below), so at most one of them fires and the
    chain below does the same. *)
Definition handleKeyDown (s : Session) (key : string) : Session :=
  if isComplete s then s
  else if isDigitKey key then
    match parseInt key with
    | Some num => handleNumberInput s num
    | None => s
    end
  else if String.eqb key "Backspace" || String.eqb key "Delete"
  then handleErase s
  else if String.eqb key "ArrowUp" then handleArrow s ArrowUp
  else if String.eqb key "ArrowDown" then handleArrow s ArrowDown
  else if String.eqb key "ArrowLeft" then handleArrow s ArrowLeft
  else if String.eqb key "ArrowRight" then handleArrow s ArrowRight
  else if String.eqb key "m" || String.eqb key "M" then toggleMemoMode s
  else s.

Definition namedKeys : list string :=
  ["Backspace"; "Delete"; "ArrowUp"; "ArrowDown"; "ArrowLeft"; "ArrowRight";
   "m"; "M"].

(* ------------------------------------------------------------------------- *)
(** ** A concrete random source *)
(* ------------------------------------------------------------------------- *)

(** A small deterministic source, used to run the program on examples: a
    linear congruential state; shuffles are rotations of [1..9]; an index
    pair is the row and the column of [seed mod 81]. *)
Record DemoRng := mkDemoRng { seed : nat; second : bool }.

Definition demoNext (x : nat) : nat := (21 * x + 7) mod 100.

#[export] Instance demoSource : RandomSource DemoRng := {|
  shuffle9 g :=
    (rotate (seed g mod 9) digits, mkDemoRng (demoNext (seed g)) (second g));
  randIndex g :=
    if second g
    then ((seed g mod 81) mod 9, mkDemoRng (demoNext (seed g)) false)
    else ((seed g mod 81) / 9, mkDemoRng (seed g) true)
|}.

Definition demoStart : DemoRng := mkDemoRng 3 false.

(** What the program produces from [demoStart] at difficulty Easy (checked
    by evaluation in [demo_generatePuzzle]). *)
Definition demoSolution : Board :=
  [[4; 5; 6; 7; 8; 9; 1; 2; 3]; [8; 7; 9; 3; 1; 2; 6; 4; 5];
   [1; 2; 3; 6; 4; 5; 7; 8; 9]; [2; 1; 4; 5; 6; 3; 9; 7; 8];
   [3; 8; 7; 1; 9; 4; 2; 5; 6]; [9; 6; 5; 8; 2; 7; 3; 1; 4];
   [6; 3; 2; 4; 5; 1; 8; 9; 7]; [7; 4; 1; 9; 3; 8; 5; 6; 2];
   [5; 9; 8; 2; 7; 6; 4; 3; 1]].

Definition demoPuzzle : Board :=
  [[0; 0; 0; 0; 8; 9; 0; 0; 0]; [8; 7; 9; 0; 1; 0; 6; 4; 0];
   [1; 0; 3; 6; 4; 5; 7; 8; 9]; [2; 0; 4; 0; 6; 3; 0; 7; 0];
   [0; 0; 7; 1; 9; 0; 0; 5; 6]; [9; 6; 5; 8; 0; 7; 3; 1; 4];
   [0; 3; 2; 4; 5; 1; 0; 9; 7]; [0; 4; 0; 0; 0; 0; 5; 6; 0];
   [0; 9; 8; 2; 7; 6; 4; 0; 1]].

Definition demoEnd : DemoRng := mkDemoRng 76 false.

Definition demoSession : Session := newSession false demoSolution demoPuzzle.

(** The cells the player still has to fill, and the clicks and key presses
    that fill a list of cells with the solution's digits. *)
Definition blankCells (b : Board) : list (nat * nat) :=
  filter (fun rc => cell b rc.1 rc.2 = BLANK) allCells.

Definition fillEvents (sol : Board) (cells : list (nat * nat)) : list Event :=
  rc ← cells; [ClickCell rc.1 rc.2; NumberInput (cell sol rc.1 rc.2)].

(** The demo game with every blank but the last one, (8, 7), filled in
    correctly and the last one selected. *)
Definition demoAlmostSolved : Session :=
  runEvents demoSession
    (fillEvents demoSolution (removelast (blankCells demoPuzzle))
       ++ [ClickCell 8 7]).

(** The demo game after a memo of 2 at (0, 0) and then the wrong digit 9
    there (the solution has 4). *)
Definition demoWrongDigit : Session :=
  runEvents demoSession
    [ClickCell 0 0; MemoToggle; NumberInput 2; MemoToggle; NumberInput 9].

(** The demo game in memo mode with the single memo 2 at (0, 0). *)
Definition demoOneMemo : Session :=
  runEvents demoSession [ClickCell 0 0; MemoToggle; NumberInput 2].

(** The demo game in memo mode after the memos 7, 2, 5 at (0, 0). *)
Definition demoThreeMemos : Session :=
  runEvents demoSession
    [ClickCell 0 0; MemoToggle; NumberInput 7; NumberInput 2; NumberInput 5].

(** The demo game after the memo 2 at (0, 0), back in normal mode. *)
Definition demoMemoThenNormal : Session :=
  runEvents demoOneMemo [MemoToggle].

(** The demo game once the last blank has been filled in as well. *)
Definition demoSolved : Session := handleNumberInput demoAlmostSolved 3.

(** Attempts on the given cell (0, 4), which holds 8. *)
Definition demoGivenAttack : list Event :=
  [ClickCell 0 4; NumberInput 5; EraseInput; NumberInput 8; MemoToggle;
   NumberInput 1; ArrowKey ArrowLeft; ArrowKey ArrowRight; EraseInput].

(** A source outside the laws, kept apart from the demo source and used
    only to see what the generator does when the top-level solver call
    fails: its first shuffle hands back [skewRow], in which digits repeat;
    every later shuffle and every index is the demo source's. *)
Record SkewRng := mkSkewRng { skewFirst : bool; skewRest : DemoRng }.

Definition skewRow : list nat := [1; 2; 3; 1; 2; 3; 1; 2; 3].

#[export] Instance skewSource : RandomSource SkewRng := {|
  shuffle9 g :=
    if skewFirst g then (skewRow, mkSkewRng false (skewRest g))
    else let '(p, d) := shuffle9 (skewRest g) in (p, mkSkewRng false d);
  randIndex g :=
    let '(i, d) := randIndex (skewRest g) in (i, mkSkewRng (skewFirst g) d)
|}.

Definition skewStart : SkewRng := mkSkewRng true demoStart.

Definition skewEnd : SkewRng := mkSkewRng false (mkDemoRng 62 false).

(** A board that cannot be completed: the only blank of row 0 needs a 9,
    and column 8 already holds one. *)
Definition deadEndBoard : Board :=
  setCell (seedBoard [1; 2; 3; 4; 5; 6; 7; 8; 0]) 1 8 9.

(* ------------------------------------------------------------------------- *)
(** ** Predicates used in the proofs *)
(* ------------------------------------------------------------------------- *)

Definition inRange (r c : nat) : Prop := r < GRID_SIZE ∧ c < GRID_SIZE.

(** No filled cell repeats within its row, column or box. *)
Definition consistent (b : Board) : Prop :=
  ∀ r c r' c', inRange r c → inRange r' c' → (r', c') ≠ (r, c) →
    sameUnit r c r' c' → cell b r c ≠ BLANK → cell b r c ≠ cell b r' c'.

(** What the solver maintains: a 9x9 board of blanks and digits with no
    conflict. *)
Definition partialValid (b : Board) : Prop :=
  wfBoard b ∧ consistent b ∧ ∀ r c, inRange r c → cell b r c ≤ 9.

Definition full (b : Board) : Prop :=
  ∀ r c, inRange r c → cell b r c ≠ BLANK.

(** [sol] is a complete valid grid that agrees with the filled cells of [b]. *)
Definition completes (sol : nat → nat → nat) (b : Board) : Prop :=
  (∀ r c, inRange r c → 1 ≤ sol r c ≤ 9) ∧
  (∀ r c r' c', inRange r c → inRange r' c' → (r', c') ≠ (r, c) →
     sameUnit r c r' c' → sol r c ≠ sol r' c') ∧
  (∀ r c, inRange r c → cell b r c ≠ BLANK → cell b r c = sol r c).

(** A fixed complete grid whose first row is 1..9, and its relabelling by a
    first row [p]. *)
Definition baseGrid (r c : nat) : nat := (3 * (r mod 3) + r / 3 + c) mod 9 + 1.

Definition relabel (p : list nat) (r c : nat) : nat := p !!! (baseGrid r c - 1).

(** Both are decidable, which lets closed instances be settled by
    evaluation. *)
#[local] Instance sameUnit_dec (r c r' c' : nat) : Decision (sameUnit r c r' c').
Proof. unfold sameUnit. apply _. Defined.

#[local] Instance validEvent_dec (e : Event) : Decision (validEvent e).
Proof. destruct e; simpl; apply _. Defined.

(** A call that reports failure hands the board back as it received it. *)
Definition restores {G : Type} (rec : Board → G → option (bool * Board * G))
    : Prop :=
  ∀ b g b' g', wfBoard b → rec b g = Some (false, b', g') → b' = b.

(** A call that reports success hands back a full board without conflict. *)
Definition succeedsValid {G : Type}
    (rec : Board → G → option (bool * Board * G)) : Prop :=
  ∀ b g b' g', partialValid b → rec b g = Some (true, b', g') →
               partialValid b' ∧ full b'.

(** A stored memo array: strictly ascending digits. *)
Definition memoListOk (l : list nat) : Prop :=
  StronglySorted lt l ∧ Forall (fun d => 1 ≤ d ≤ 9) l.

(** What holds of the component state between events. *)
Record sessionInv (s : Session) : Prop := mkSessionInv {
  inv_board : wfBoard (board s);
  inv_solution : validSolution (solution s);
  inv_selected : ∀ r c, selectedCell s = Some (r, c) → inRange r c;
  inv_given : ∀ r c, inRange r c → cell (initialBoard s) r c ≠ BLANK →
      cell (board s) r c = cell (initialBoard s) r c ∧
      cell (initialBoard s) r c = cell (solution s) r c;
  inv_complete : isComplete s = true ↔
      ∀ r c, inRange r c → cell (board s) r c = cell (solution s) r c;
  inv_memos : map_Forall (fun _ l => memoListOk l) (memos s)
}.

(** Every memo entry sits under the key of an editable cell of the grid. *)
Definition memoKeysOk (s : Session) : Prop :=
  ∀ key l, memos s !! key = Some l →
    ∃ r c, inRange r c ∧ key = memoKey r c ∧
           cell (initialBoard s) r c = BLANK.

(* ------------------------------------------------------------------------- *)
(** ** Basic facts about boards *)
(* ------------------------------------------------------------------------- *)

Lemma existsb_seq0 (f : nat → bool) (n : nat) :
  existsb f (seq 0 n) = true ↔ ∃ x, x < n ∧ f x = true.
Proof.
  rewrite existsb_exists. split.
  - intros (x & Hin & Hx). apply in_seq in Hin. exists x. split; [lia | done].
  - intros (x & Hlt & Hx). exists x. split; [apply in_seq; lia | done].
Qed.

Lemma existsb_seq0_false (f : nat → bool) (n : nat) :
  existsb f (seq 0 n) = false ↔ ∀ x, x < n → f x = false.
Proof.
  split.
  - intros H x Hx. destruct (f x) eqn:E; [| done].
    assert (existsb f (seq 0 n) = true) by (apply existsb_seq0; eauto).
    congruence.
  - intros H. destruct (existsb f (seq 0 n)) eqn:E; [| done].
    apply existsb_seq0 in E as (x & Hx & Hf). rewrite H in Hf; done.
Qed.

Lemma wfBoard_empty : wfBoard getEmptyBoard.
Proof.
  split; [done |]. unfold getEmptyBoard.
  apply Forall_replicate. done.
Qed.

Lemma wfBoard_row (b : Board) (r : nat) :
  wfBoard b → r < GRID_SIZE → ∃ row, b !! r = Some row ∧ length row = GRID_SIZE.
Proof.
  intros [Hl Hrows] Hr.
  destruct (lookup_lt_is_Some_2 b r) as [row Hrow]; [lia |].
  exists row. split; [done |].
  by eapply (Forall_lookup_1 _ _ _ _ Hrows).
Qed.

Lemma wfBoard_row_total (b : Board) (r : nat) :
  wfBoard b → r < GRID_SIZE → length (b !!! r) = GRID_SIZE.
Proof.
  intros Hwf Hr. destruct (wfBoard_row b r Hwf Hr) as (row & Hrow & Hlen).
  by rewrite (list_lookup_total_correct _ _ _ Hrow).
Qed.

Lemma wfBoard_setCell (b : Board) (r c v : nat) :
  wfBoard b → wfBoard (setCell b r c v).
Proof.
  intros [Hl Hrows]. split.
  - unfold setCell. by rewrite length_alter.
  - unfold setCell. apply Forall_forall. intros row Hin.
    apply list_elem_of_lookup in Hin as [i Hi].
    destruct (decide (i = r)) as [-> | Hne].
    + rewrite list_lookup_alter_eq in Hi.
      destruct (b !! r) as [row0 |] eqn:E; simplify_eq/=.
      rewrite length_insert. by eapply (Forall_lookup_1 _ _ _ _ Hrows).
    + rewrite list_lookup_alter_ne in Hi by done.
      by eapply (Forall_lookup_1 _ _ _ _ Hrows).
Qed.

Lemma cell_setCell_eq (b : Board) (r c v : nat) :
  wfBoard b → r < GRID_SIZE → c < GRID_SIZE → cell (setCell b r c v) r c = v.
Proof.
  intros Hwf Hr Hc. unfold cell, setCell.
  rewrite list_lookup_total_alter_eq by (destruct Hwf; lia).
  apply list_lookup_total_insert_eq.
  rewrite wfBoard_row_total by done. done.
Qed.

Lemma cell_setCell_ne (b : Board) (r c v r' c' : nat) :
  (r', c') ≠ (r, c) → cell (setCell b r c v) r' c' = cell b r' c'.
Proof.
  intros Hne. unfold cell, setCell.
  destruct (decide (r' = r)) as [-> | Hr].
  - assert (c ≠ c') by congruence.
    rewrite list_lookup_total_alter. case_decide; [| done].
    by rewrite list_lookup_total_insert_ne.
  - by rewrite list_lookup_total_alter_ne.
Qed.

Lemma cell_setCell (b : Board) (r c v r' c' : nat) :
  wfBoard b → r < GRID_SIZE → c < GRID_SIZE →
  cell (setCell b r c v) r' c' =
    if decide ((r', c') = (r, c)) then v else cell b r' c'.
Proof.
  intros Hwf Hr Hc. case_decide as E.
  - simplify_eq. by apply cell_setCell_eq.
  - by apply cell_setCell_ne.
Qed.

(** Two 9x9 boards with the same cells are the same value. *)
Lemma board_ext (b1 b2 : Board) :
  wfBoard b1 → wfBoard b2 →
  (∀ r c, r < GRID_SIZE → c < GRID_SIZE → cell b1 r c = cell b2 r c) →
  b1 = b2.
Proof.
  intros Hwf1 Hwf2 Hcells.
  apply list_eq_same_length with GRID_SIZE; [apply Hwf2 | apply Hwf1 |].
  intros r row1 row2 Hr H1 H2.
  pose proof (wfBoard_row_total b1 r Hwf1 Hr) as Hl1.
  pose proof (wfBoard_row_total b2 r Hwf2 Hr) as Hl2.
  rewrite (list_lookup_total_correct _ _ _ H1) in Hl1.
  rewrite (list_lookup_total_correct _ _ _ H2) in Hl2.
  apply list_eq_same_length with GRID_SIZE; [done | done |].
  intros c x y Hc Hx Hy.
  specialize (Hcells r c Hr Hc). unfold cell in Hcells.
  rewrite (list_lookup_total_correct _ _ _ H1) in Hcells.
  rewrite (list_lookup_total_correct _ _ _ H2) in Hcells.
  rewrite (list_lookup_total_correct _ _ _ Hx) in Hcells.
  rewrite (list_lookup_total_correct _ _ _ Hy) in Hcells.
  done.
Qed.

Lemma copyBoard_id (b : Board) : copyBoard b = b.
Proof. unfold copyBoard. apply list_fmap_id. Qed.

Lemma setCell_same (b : Board) (r c : nat) :
  wfBoard b → r < GRID_SIZE → c < GRID_SIZE →
  setCell b r c (cell b r c) = b.
Proof.
  intros Hwf Hr Hc. apply board_ext; [by apply wfBoard_setCell | done |].
  intros r' c' _ _. rewrite cell_setCell by done.
  case_decide; by simplify_eq.
Qed.

Lemma setCell_setCell (b : Board) (r c v w : nat) :
  wfBoard b → r < GRID_SIZE → c < GRID_SIZE →
  setCell (setCell b r c v) r c w = setCell b r c w.
Proof.
  intros Hwf Hr Hc.
  apply board_ext; [by do 2 apply wfBoard_setCell | by apply wfBoard_setCell |].
  intros r' c' _ _.
  rewrite !cell_setCell by auto using wfBoard_setCell.
  by case_decide.
Qed.

Lemma elem_of_allCells (r c : nat) :
  (r, c) ∈ allCells ↔ r < GRID_SIZE ∧ c < GRID_SIZE.
Proof.
  unfold allCells. rewrite list_elem_of_bind. split.
  - intros (r' & Hin & Hr'). apply list_elem_of_fmap in Hin as (c' & ? & Hc').
    simplify_eq. apply list_elem_of_In, in_seq in Hr'.
    apply list_elem_of_In, in_seq in Hc'. lia.
  - intros [Hr Hc]. exists r. split.
    + apply list_elem_of_fmap. exists c. split; [done |].
      apply list_elem_of_In, in_seq. lia.
    + apply list_elem_of_In, in_seq. lia.
Qed.

Lemma NoDup_allCells : NoDup allCells.
Proof. apply (bool_decide_unpack _). vm_compute. done. Qed.

Lemma cell_getEmptyBoard (r c : nat) :
  r < GRID_SIZE → c < GRID_SIZE → cell getEmptyBoard r c = BLANK.
Proof.
  intros Hr Hc. unfold cell, getEmptyBoard.
  rewrite lookup_total_replicate_2 by done.
  by rewrite lookup_total_replicate_2.
Qed.

(* ------------------------------------------------------------------------- *)
(** ** What [isSafe] computes *)
(* ------------------------------------------------------------------------- *)

Ltac divmod3 x :=
  pose proof (Nat.div_mod_eq x 3);
  pose proof (Nat.mod_upper_bound x 3 ltac:(lia)).

Lemma box_corner_div (x i : nat) :
  i < 3 → (i + (x - x mod 3)) / 3 = x / 3.
Proof.
  intros Hi. divmod3 x. symmetry. apply (Nat.div_unique _ 3 _ i); lia.
Qed.

Lemma box_corner_offset (x y : nat) :
  y / 3 = x / 3 → y = y mod 3 + (x - x mod 3).
Proof. intros E. divmod3 x. divmod3 y. lia. Qed.

Lemma isSafe_false_occurs (b : Board) (row col num : nat) :
  row < GRID_SIZE → col < GRID_SIZE →
  isSafe b row col num = false → occursInUnit b row col num.
Proof.
  intros Hrow Hcol. unfold isSafe, GRID_SIZE in *.
  destruct (existsb (fun x => cell b row x =? num) (seq 0 9)) eqn:E1.
  { intros _. apply existsb_seq0 in E1 as (x & Hx & Hc).
    apply Nat.eqb_eq in Hc. exists row, x.
    split; [done |]. split; [done |]. split; [by left | done]. }
  destruct (existsb (fun x => cell b x col =? num) (seq 0 9)) eqn:E2.
  { intros _. apply existsb_seq0 in E2 as (x & Hx & Hc).
    apply Nat.eqb_eq in Hc. exists x, col.
    split; [done |]. split; [done |]. split; [right; by left | done]. }
  destruct (existsb _ (seq 0 3)) eqn:E3; [| done].
  intros _. apply existsb_seq0 in E3 as (i & Hi & E3).
  apply existsb_seq0 in E3 as (j & Hj & Hc). apply Nat.eqb_eq in Hc.
  divmod3 row. divmod3 col.
  exists (i + (row - row mod 3)), (j + (col - col mod 3)).
  unfold GRID_SIZE. split; [lia |]. split; [lia |]. split; [| done].
  right; right. by rewrite !box_corner_div.
Qed.

Lemma isSafe_true_free (b : Board) (row col num r c : nat) :
  isSafe b row col num = true →
  r < GRID_SIZE → c < GRID_SIZE → sameUnit row col r c → cell b r c ≠ num.
Proof.
  unfold isSafe, GRID_SIZE. intros Hsafe Hr Hc Hunit.
  destruct (existsb (fun x => cell b row x =? num) (seq 0 9)) eqn:E1; [done |].
  destruct (existsb (fun x => cell b x col =? num) (seq 0 9)) eqn:E2; [done |].
  destruct (existsb _ (seq 0 3)) eqn:E3; [done |].
  destruct Hunit as [-> | [-> | [Hbr Hbc]]].
  - rewrite existsb_seq0_false in E1. by apply Nat.eqb_neq, E1.
  - rewrite existsb_seq0_false in E2. by apply Nat.eqb_neq, E2.
  - rewrite existsb_seq0_false in E3.
    divmod3 r. divmod3 c.
    specialize (E3 (r mod 3) ltac:(lia)).
    rewrite existsb_seq0_false in E3.
    specialize (E3 (c mod 3) ltac:(lia)).
    rewrite <- (box_corner_offset row r), <- (box_corner_offset col c) in E3
      by done.
    by apply Nat.eqb_neq.
Qed.

Lemma isSafe_false_iff (b : Board) (row col num : nat) :
  row < GRID_SIZE → col < GRID_SIZE →
  isSafe b row col num = false ↔ occursInUnit b row col num.
Proof.
  intros Hrow Hcol. split; [by apply isSafe_false_occurs |].
  intros (r & c & Hr & Hc & Hunit & Hcell).
  destruct (isSafe b row col num) eqn:E; [| done].
  by destruct (isSafe_true_free b row col num r c E Hr Hc Hunit).
Qed.

Lemma isSafe_true_iff (b : Board) (row col num : nat) :
  row < GRID_SIZE → col < GRID_SIZE →
  isSafe b row col num = true ↔
  ∀ r c, r < GRID_SIZE → c < GRID_SIZE → sameUnit row col r c →
         cell b r c ≠ num.
Proof.
  intros Hrow Hcol. split.
  - intros E r c. by apply isSafe_true_free.
  - intros Hfree. destruct (isSafe b row col num) eqn:E; [done |].
    apply isSafe_false_occurs in E as (r & c & Hr & Hc & Hunit & Hcell);
      try done.
    by destruct (Hfree r c Hr Hc Hunit).
Qed.

Lemma sameUnit_refl (row col : nat) : sameUnit row col row col.
Proof. by left. Qed.

(** C7 (as amended).  [isSafe] returns [false] exactly when the digit occurs
    somewhere in the row, the column or the 3x3 box of [(row, col)], the cell
    [(row, col)] itself included, and [true] otherwise.  When the cell does
    not hold the digit (the solver only asks about blank cells) this is the
    same as "occurs elsewhere".  The function only reads the board. *)
Theorem isSafe_checks_whole_unit (b : Board) (row col num : nat) :
  row < GRID_SIZE → col < GRID_SIZE →
  (isSafe b row col num = false ↔ occursInUnit b row col num) ∧
  (isSafe b row col num = true ↔ ¬ occursInUnit b row col num) ∧
  (cell b row col = num → isSafe b row col num = false) ∧
  (cell b row col ≠ num →
     (isSafe b row col num = false ↔ occursElsewhere b row col num)).
Proof.
  intros Hrow Hcol.
  pose proof (isSafe_false_iff b row col num Hrow Hcol) as Hfalse.
  split; [done |]. split; [| split].
  - rewrite <- Hfalse. by destruct (isSafe b row col num).
  - intros Hself. apply Hfalse. exists row, col.
    split; [done |]. split; [done |]. split; [apply sameUnit_refl | done].
  - intros Hself. rewrite Hfalse. split.
    + intros (r & c & Hr & Hc & Hunit & Hcell). exists r, c.
      split; [done |]. split; [done |]. split; [| done].
      intros [= -> ->]. done.
    + intros (r & c & Hr & Hc & _ & Hunit & Hcell). by exists r, c.
Qed.

Lemma isSafe_checks_whole_unit_witness :
  let b := setCell getEmptyBoard 4 7 6 in
  isSafe b 3 6 6 = false ∧ occursElsewhere b 3 6 6 ∧ isSafe b 3 6 5 = true.
Proof.
  intros b.
  destruct (isSafe_checks_whole_unit b 3 6 6) as (H1 & H2 & H3 & H4);
    [unfold GRID_SIZE; lia | unfold GRID_SIZE; lia |].
  assert (isSafe b 3 6 6 = false) as E by (vm_compute; reflexivity).
  split; [exact E |]. split.
  - apply H4; [vm_compute; lia | exact E].
  - vm_compute; reflexivity.
Defined.

(** C7 (as stated) fails when the cell itself holds the digit: on the board
    whose only entry is a 5 at (0, 0), the digit 5 occurs nowhere else, yet
    [isSafe] answers [false] for (0, 0). *)
Lemma isSafe_self_counterexample :
  let b := setCell getEmptyBoard 0 0 5 in
  wfBoard b ∧ cell b 0 0 = 5 ∧
  ¬ occursElsewhere b 0 0 5 ∧
  isSafe b 0 0 5 = false.
Proof.
  intros b. split; [apply wfBoard_setCell, wfBoard_empty |].
  split; [reflexivity |]. split; [| reflexivity].
  intros (r & c & Hr & Hc & Hne & _ & Hcell).
  unfold b in Hcell. rewrite cell_setCell_ne in Hcell by done.
  rewrite cell_getEmptyBoard in Hcell by done. done.
Qed.

(* ------------------------------------------------------------------------- *)
(** ** Counting cells *)
(* ------------------------------------------------------------------------- *)

Section filter_point.
Context {A : Type} (P Q : A → Prop).
Context `{!∀ x, Decision (P x)} `{!∀ x, Decision (Q x)}.

Lemma filter_length_agree (l : list A) :
  (∀ y, y ∈ l → (P y ↔ Q y)) → length (filter P l) = length (filter Q l).
Proof.
  induction l as [| y l IH]; intros Hag; [done |].
  rewrite !filter_cons.
  assert (P y ↔ Q y) as Hy by (apply Hag; left).
  assert (length (filter P l) = length (filter Q l)) as Hl
    by (apply IH; intros; apply Hag; by right).
  destruct (decide (P y)), (decide (Q y)); simpl; tauto || lia.
Qed.

(** [P] and [Q] differ at one element of a duplicate-free list. *)
Lemma filter_length_point (l : list A) (x : A) :
  NoDup l → x ∈ l → P x → ¬ Q x →
  (∀ y, y ∈ l → y ≠ x → (P y ↔ Q y)) →
  length (filter P l) = S (length (filter Q l)).
Proof.
  induction l as [| y l IH]; intros Hnd Hin HP HQ Hag.
  - by apply elem_of_nil in Hin.
  - apply NoDup_cons in Hnd as [Hy Hnd]. rewrite !filter_cons.
    apply elem_of_cons in Hin as [-> | Hin].
    + rewrite decide_True by done. rewrite decide_False by done. simpl.
      f_equal. apply filter_length_agree. intros z Hz.
      apply Hag; [by right |]. intros ->. done.
    + assert (y ≠ x) as Hne by (intros ->; done).
      assert (P y ↔ Q y) as Hyy by (apply Hag; [left | done]).
      assert (length (filter P l) = S (length (filter Q l))) as Hl.
      { apply IH; try done. intros z Hz. apply Hag. by right. }
      destruct (decide (P y)), (decide (Q y)); simpl; tauto || lia.
Qed.
End filter_point.

Lemma filter_length_all {A : Type} (P : A → Prop) `{!∀ x, Decision (P x)}
    (l : list A) :
  (∀ x, x ∈ l → P x) → length (filter P l) = length l.
Proof.
  induction l as [| y l IH]; intros Hall; [done |].
  rewrite filter_cons, decide_True by (apply Hall; left). simpl.
  f_equal. apply IH. intros x Hx. apply Hall. by right.
Qed.

Lemma filter_length_lt_exists {A : Type} (P : A → Prop)
    `{!∀ x, Decision (P x)} (l : list A) :
  length (filter P l) < length l → ∃ x, x ∈ l ∧ ¬ P x.
Proof.
  induction l as [| y l IH]; simpl; [lia |].
  rewrite filter_cons. destruct (decide (P y)) as [Hy | Hy]; simpl.
  - intros Hlt. destruct IH as (x & Hx & HP); [lia |].
    exists x. split; [by right | done].
  - intros _. exists y. split; [left | done].
Qed.

Lemma length_allCells : length allCells = GRID_SIZE * GRID_SIZE.
Proof. reflexivity. Qed.

Lemma countBlank_le (b : Board) : countBlank b ≤ GRID_SIZE * GRID_SIZE.
Proof. unfold countBlank. rewrite <- length_allCells. apply length_filter. Qed.

Lemma countNonBlank_le (b : Board) : countNonBlank b ≤ GRID_SIZE * GRID_SIZE.
Proof. unfold countNonBlank. rewrite <- length_allCells. apply length_filter. Qed.

(** Filling a blank cell removes one blank. *)
Lemma countBlank_fill (b : Board) (r c num : nat) :
  wfBoard b → inRange r c → cell b r c = BLANK → num ≠ BLANK →
  countBlank b = S (countBlank (setCell b r c num)).
Proof.
  intros Hwf [Hr Hc] Hblank Hnum. unfold countBlank.
  apply (filter_length_point _ _ _ (r, c)).
  - apply NoDup_allCells.
  - by apply elem_of_allCells.
  - done.
  - simpl. by rewrite cell_setCell_eq.
  - intros [r' c'] _ Hne. simpl. by rewrite cell_setCell_ne.
Qed.

(** Blanking a filled cell removes one filled cell. *)
Lemma countNonBlank_blank (b : Board) (r c : nat) :
  wfBoard b → inRange r c → cell b r c ≠ BLANK →
  countNonBlank b = S (countNonBlank (setCell b r c BLANK)).
Proof.
  intros Hwf [Hr Hc] Hfilled. unfold countNonBlank.
  apply (filter_length_point _ _ _ (r, c)).
  - apply NoDup_allCells.
  - by apply elem_of_allCells.
  - done.
  - simpl. rewrite cell_setCell_eq by done. by intros [].
  - intros [r' c'] _ Hne. simpl. by rewrite cell_setCell_ne.
Qed.

(* ------------------------------------------------------------------------- *)
(** ** The solver: what a failed call leaves, and termination *)
(* ------------------------------------------------------------------------- *)

Lemma findBlank_Some (b : Board) (r c : nat) :
  findBlank b = Some (r, c) → inRange r c ∧ cell b r c = BLANK.
Proof.
  unfold findBlank. intros Hfind. apply find_some in Hfind as [Hin Hcell].
  apply list_elem_of_In, elem_of_allCells in Hin.
  apply Nat.eqb_eq in Hcell. done.
Qed.

Lemma findBlank_None (b : Board) : findBlank b = None → full b.
Proof.
  unfold findBlank. intros Hfind r c Hrc.
  apply elem_of_allCells, list_elem_of_In in Hrc.
  pose proof (find_none _ _ Hfind (r, c) Hrc) as Hcell.
  by apply Nat.eqb_neq in Hcell.
Qed.

Lemma setCell_restore (b : Board) (r c v : nat) :
  wfBoard b → inRange r c → cell b r c = BLANK →
  setCell (setCell b r c v) r c BLANK = b.
Proof.
  intros Hwf [Hr Hc] Hblank. rewrite setCell_setCell by done.
  rewrite <- Hblank. by apply setCell_same.
Qed.

Lemma isSafe_true_ne_self (b : Board) (r c num : nat) :
  inRange r c → isSafe b r c num = true → cell b r c ≠ num.
Proof.
  intros [Hr Hc] Hsafe.
  apply (isSafe_true_free b r c num r c Hsafe Hr Hc), sameUnit_refl.
Qed.

Section solver.
Context {G : Type} `{RandomSource G}.

Lemma tryNums_restores (rec : Board → G → option (bool * Board * G))
    (r c : nat) (nums : list nat) :
  restores rec → inRange r c →
  ∀ b g b' g', wfBoard b → cell b r c = BLANK →
    tryNums rec r c nums b g = Some (false, b', g') → b' = b.
Proof.
  intros Hrec Hrc.
  induction nums as [| num rest IH]; intros b g b' g' Hwf Hblank Hrun;
    simpl in Hrun.
  - by simplify_eq.
  - destruct (isSafe b r c num); [| by eapply IH].
    destruct (rec (setCell b r c num) g) as [[[[] b1] g1] |] eqn:E;
      try done.
    apply Hrec in E; [| by apply wfBoard_setCell]. subst b1.
    rewrite setCell_restore in Hrun by done. by eapply IH.
Qed.

Lemma solveSudoku_restores (fuel : nat) : restores (solveSudoku fuel).
Proof.
  induction fuel as [| fuel IH]; intros b g b' g' Hwf Hrun;
    simpl in Hrun; [done |].
  destruct (findBlank b) as [[r c] |] eqn:E; [| done].
  destruct (shuffle9 g) as [nums g1].
  apply findBlank_Some in E as [Hrc Hblank].
  by eapply tryNums_restores.
Qed.

Lemma tryNums_total (rec : Board → G → option (bool * Board * G))
    (r c : nat) (nums : list nat) (b : Board) :
  restores rec → inRange r c → wfBoard b → cell b r c = BLANK →
  (∀ num g, isSafe b r c num = true →
            is_Some (rec (setCell b r c num) g)) →
  ∀ g, is_Some (tryNums rec r c nums b g).
Proof.
  intros Hrec Hrc Hwf Hblank Htotal.
  induction nums as [| num rest IH]; intros g; simpl; [done |].
  destruct (isSafe b r c num) eqn:Hsafe; [| apply IH].
  destruct (Htotal num g Hsafe) as [[[ok b1] g1] E]. rewrite E.
  destruct ok; [done |].
  apply Hrec in E; [| by apply wfBoard_setCell]. subst b1.
  rewrite setCell_restore by done. apply IH.
Qed.

(** The recursion depth is bounded by the number of blank cells: with more
    fuel than blanks the model never reports the bound. *)
Lemma solveSudoku_fuel_enough (fuel : nat) (b : Board) (g : G) :
  wfBoard b → countBlank b < fuel → is_Some (solveSudoku fuel b g).
Proof.
  revert b g. induction fuel as [| fuel IH]; intros b g Hwf Hfuel; [lia |].
  simpl. destruct (findBlank b) as [[r c] |] eqn:E; [| done].
  destruct (shuffle9 g) as [nums g1].
  apply findBlank_Some in E as [Hrc Hblank].
  apply tryNums_total; try done; [apply solveSudoku_restores |].
  intros num g' Hsafe. apply IH; [by apply wfBoard_setCell |].
  pose proof (isSafe_true_ne_self b r c num Hrc Hsafe) as Hne.
  rewrite (countBlank_fill b r c num) in Hfuel by (done || congruence).
  lia.
Qed.
End solver.

(* ------------------------------------------------------------------------- *)
(** ** The solver: a reported success is a valid grid *)
(* ------------------------------------------------------------------------- *)

Lemma sameUnit_sym (r c r' c' : nat) : sameUnit r c r' c' → sameUnit r' c' r c.
Proof. unfold sameUnit. intros [-> | [-> | [-> ->]]]; auto. Qed.

Lemma partialValid_place (b : Board) (r c num : nat) :
  partialValid b → inRange r c → isSafe b r c num = true → 1 ≤ num ≤ 9 →
  partialValid (setCell b r c num).
Proof.
  intros (Hwf & Hcons & Hdig) [Hr Hc] Hsafe Hnum.
  split; [by apply wfBoard_setCell |]. split.
  - intros r1 c1 r2 c2 [Hr1 Hc1] [Hr2 Hc2] Hne Hunit.
    rewrite !cell_setCell by done.
    repeat case_decide; simplify_eq.
    + intros _ Heq.
      by apply (isSafe_true_free b r c num r2 c2 Hsafe).
    + intros Hfilled Heq.
      apply sameUnit_sym in Hunit.
      by apply (isSafe_true_free b r c num r1 c1 Hsafe).
    + by apply Hcons.
  - intros r1 c1 [Hr1 Hc1]. rewrite cell_setCell by done.
    case_decide; [lia | by apply Hdig].
Qed.

Section solver_sound.
Context {G : Type} `{RandomSourceLaws G}.

Lemma shuffle9_digits (g : G) : Forall (fun n => 1 ≤ n ≤ 9) (shuffle9 g).1.
Proof.
  rewrite (shuffle9_perm g). unfold digits, GRID_SIZE.
  repeat constructor; lia.
Qed.

Lemma tryNums_sound (rec : Board → G → option (bool * Board * G))
    (r c : nat) (nums : list nat) :
  restores rec → succeedsValid rec → inRange r c →
  Forall (fun n => 1 ≤ n ≤ 9) nums →
  ∀ b g b' g', partialValid b → cell b r c = BLANK →
    tryNums rec r c nums b g = Some (true, b', g') →
    partialValid b' ∧ full b'.
Proof.
  intros Hrest Hrec Hrc.
  induction nums as [| num rest IH]; intros Hnums b g b' g' Hpv Hblank Hrun;
    simpl in Hrun; [done |].
  apply Forall_cons in Hnums as [Hnum Hnums].
  destruct (isSafe b r c num) eqn:Hsafe; [| by eapply IH].
  destruct (rec (setCell b r c num) g) as [[[[] b1] g1] |] eqn:E;
    try done.
  - simplify_eq. eapply Hrec; [| done]. by apply partialValid_place.
  - apply Hrest in E; [| apply wfBoard_setCell, Hpv]. subst b1.
    rewrite setCell_restore in Hrun by (done || apply Hpv).
    by eapply IH.
Qed.

Lemma solveSudoku_sound (fuel : nat) : succeedsValid (solveSudoku fuel).
Proof.
  induction fuel as [| fuel IH]; intros b g b' g' Hpv Hrun;
    simpl in Hrun; [done |].
  destruct (findBlank b) as [[r c] |] eqn:E.
  - pose proof (shuffle9_digits g) as Hnums.
    destruct (shuffle9 g) as [nums g1].
    apply findBlank_Some in E as [Hrc Hblank].
    eapply (tryNums_sound (solveSudoku fuel)); try done.
    apply solveSudoku_restores.
  - simplify_eq. split; [done |]. by apply findBlank_None.
Qed.

(* ----------------------------------------------------------------------- *)
(** ** The solver: it finds a completion whenever there is one *)
(* ----------------------------------------------------------------------- *)

Lemma completes_safe (sol : nat → nat → nat) (b : Board) (r c : nat) :
  completes sol b → inRange r c → cell b r c = BLANK →
  isSafe b r c (sol r c) = true.
Proof.
  intros (Hrange & Hdistinct & Hagree) Hrc Hblank.
  apply isSafe_true_iff; [apply Hrc | apply Hrc |].
  intros r' c' Hr' Hc' Hunit Heq.
  destruct (decide ((r', c') = (r, c))) as [? | Hne].
  - simplify_eq. specialize (Hrange r c Hrc). unfold BLANK in *. lia.
  - assert (cell b r' c' ≠ BLANK) as Hfilled.
    { rewrite Heq. specialize (Hrange r c Hrc). unfold BLANK. lia. }
    rewrite (Hagree r' c') in Heq by done.
    by apply (Hdistinct r c r' c').
Qed.

Lemma completes_place (sol : nat → nat → nat) (b : Board) (r c : nat) :
  wfBoard b → completes sol b → inRange r c →
  completes sol (setCell b r c (sol r c)).
Proof.
  intros Hwf (Hrange & Hdistinct & Hagree) [Hr Hc].
  split; [done |]. split; [done |].
  intros r' c' Hrc'. rewrite cell_setCell by done.
  case_decide; [by simplify_eq | by apply Hagree].
Qed.

Lemma tryNums_complete (fuel : nat) (sol : nat → nat → nat)
    (r c : nat) (nums : list nat) (b : Board) :
  (∀ b g, wfBoard b → completes sol b → countBlank b < fuel →
          ∃ b' g', solveSudoku fuel b g = Some (true, b', g')) →
  wfBoard b → completes sol b → inRange r c → cell b r c = BLANK →
  countBlank b < S fuel → sol r c ∈ nums →
  ∀ g, ∃ b' g', tryNums (solveSudoku fuel) r c nums b g = Some (true, b', g').
Proof.
  intros IHfuel Hwf Hsol Hrc Hblank Hfuel.
  assert (∀ num, num ≠ BLANK → countBlank (setCell b r c num) < fuel)
    as Hless.
  { intros num Hnum.
    rewrite (countBlank_fill b r c num) in Hfuel by done. lia. }
  induction nums as [| num rest IH]; intros Hin g; simpl.
  { by apply elem_of_nil in Hin. }
  destruct (isSafe b r c num) eqn:Hsafe.
  - pose proof (isSafe_true_ne_self b r c num Hrc Hsafe) as Hne.
    destruct (solveSudoku_fuel_enough fuel (setCell b r c num) g)
      as [[[ok b1] g1] E].
    { by apply wfBoard_setCell. }
    { apply Hless. congruence. }
    rewrite E. destruct ok; [by eauto |].
    pose proof E as E'.
    apply solveSudoku_restores in E'; [| by apply wfBoard_setCell].
    subst b1. rewrite setCell_restore by done.
    apply IH. apply elem_of_cons in Hin as [<- | Hin]; [| done].
    exfalso.
    destruct (IHfuel (setCell b r c (sol r c)) g) as (b2 & g2 & E2).
    { by apply wfBoard_setCell. }
    { by apply completes_place. }
    { apply Hless. congruence. }
    congruence.
  - apply IH. apply elem_of_cons in Hin as [<- | Hin]; [| done].
    rewrite (completes_safe sol b r c) in Hsafe by done. done.
Qed.

Lemma solveSudoku_complete (sol : nat → nat → nat) (fuel : nat) :
  ∀ b g, wfBoard b → completes sol b → countBlank b < fuel →
         ∃ b' g', solveSudoku fuel b g = Some (true, b', g').
Proof.
  induction fuel as [| fuel IH]; intros b g Hwf Hsol Hfuel; [lia |].
  simpl. destruct (findBlank b) as [[r c] |] eqn:E; [| by eauto].
  pose proof (shuffle9_perm g) as Hperm.
  destruct (shuffle9 g) as [nums g1]. simpl in Hperm.
  apply findBlank_Some in E as [Hrc Hblank].
  apply (tryNums_complete fuel sol); try done.
  rewrite Hperm. destruct Hsol as (Hrange & _).
  specialize (Hrange r c Hrc). unfold digits, GRID_SIZE.
  apply list_elem_of_In, in_seq. lia.
Qed.
End solver_sound.

(* ------------------------------------------------------------------------- *)
(** ** Full boards without conflict are valid solutions *)
(* ------------------------------------------------------------------------- *)

Lemma Forall_seq9 (P : nat → Prop) :
  Forall P (seq 0 GRID_SIZE) → ∀ i, i < GRID_SIZE → P i.
Proof.
  intros HP i Hi. rewrite Forall_forall in HP. apply HP.
  apply list_elem_of_In, in_seq. lia.
Qed.

Lemma Forall_allCells (P : nat * nat → Prop) :
  Forall P allCells → ∀ r c, inRange r c → P (r, c).
Proof.
  intros HP r c Hrc. rewrite Forall_forall in HP.
  by apply HP, elem_of_allCells.
Qed.

Lemma unit_cells_perm (b : Board) (pos : nat → nat * nat) :
  partialValid b → full b →
  (∀ i, i < GRID_SIZE → inRange (pos i).1 (pos i).2) →
  (∀ i j, i < GRID_SIZE → j < GRID_SIZE → i ≠ j →
     pos j ≠ pos i ∧ sameUnit (pos i).1 (pos i).2 (pos j).1 (pos j).2) →
  (fun i => cell b (pos i).1 (pos i).2) <$> seq 0 GRID_SIZE ≡ₚ digits.
Proof.
  intros (Hwf & Hcons & Hdig) Hfull Hrange Hpos.
  apply submseteq_length_Permutation.
  - apply NoDup_submseteq.
    + apply NoDup_fmap_2_strong; [| apply NoDup_seq].
      intros i j Hi Hj Heq.
      apply list_elem_of_In, in_seq in Hi. apply list_elem_of_In, in_seq in Hj.
      destruct (decide (i = j)) as [| Hne]; [done |]. exfalso.
      destruct (Hpos i j) as [Hne' Hunit]; [lia | lia | done |].
      destruct (pos i) as [r c] eqn:Ei, (pos j) as [r' c'] eqn:Ej. simpl in *.
      apply (Hcons r c r' c'); try done.
      * specialize (Hrange i ltac:(lia)). by rewrite Ei in Hrange.
      * specialize (Hrange j ltac:(lia)). by rewrite Ej in Hrange.
      * apply Hfull. specialize (Hrange i ltac:(lia)). by rewrite Ei in Hrange.
    + intros x Hx. apply list_elem_of_fmap in Hx as (i & -> & Hi).
      apply list_elem_of_In, in_seq in Hi.
      specialize (Hrange i ltac:(lia)).
      pose proof (Hdig _ _ Hrange). pose proof (Hfull _ _ Hrange).
      apply list_elem_of_In, in_seq. unfold BLANK, GRID_SIZE in *. lia.
  - rewrite length_fmap. unfold digits. by rewrite !length_seq.
Qed.

Lemma boxPos_ok :
  Forall (fun k => Forall (fun i =>
      inRange (boxPos k i).1 (boxPos k i).2 ∧
      Forall (fun j => i ≠ j →
          boxPos k j ≠ boxPos k i ∧
          sameUnit (boxPos k i).1 (boxPos k i).2 (boxPos k j).1 (boxPos k j).2)
        (seq 0 GRID_SIZE))
    (seq 0 GRID_SIZE)) (seq 0 GRID_SIZE).
Proof. apply (bool_decide_unpack _). vm_compute. done. Qed.

Lemma full_valid (b : Board) : partialValid b → full b → validSolution b.
Proof.
  intros Hpv Hfull. split; [apply Hpv |]. intros k Hk. split; [| split].
  - apply (unit_cells_perm b (fun i => (k, i))); try done.
    intros i j Hi Hj Hne. split; [congruence | by left].
  - apply (unit_cells_perm b (fun i => (i, k))); try done.
    intros i j Hi Hj Hne. split; [congruence | right; by left].
  - pose proof (Forall_seq9 _ boxPos_ok k Hk) as Hbox. simpl in Hbox.
    apply (unit_cells_perm b (boxPos k)); try done.
    + intros i Hi. by destruct (Forall_seq9 _ Hbox i Hi).
    + intros i j Hi Hj Hne. destruct (Forall_seq9 _ Hbox i Hi) as [_ Hj'].
      by apply (Forall_seq9 _ Hj' j Hj).
Qed.

(** Conversely, a valid solution is a full board of digits. *)
Lemma validSolution_row_digit (b : Board) (r c : nat) :
  validSolution b → inRange r c → 1 ≤ cell b r c ≤ 9.
Proof.
  intros [_ Hunits] [Hr Hc]. destruct (Hunits r Hr) as (Hrow & _ & _).
  assert (cell b r c ∈ rowCells b r) as Hin.
  { unfold rowCells. apply list_elem_of_fmap. exists c. split; [done |].
    apply list_elem_of_In, in_seq. lia. }
  rewrite Hrow in Hin. apply list_elem_of_In, in_seq in Hin.
  unfold GRID_SIZE in *. lia.
Qed.

(* ------------------------------------------------------------------------- *)
(** ** The seeded board always has a completion *)
(* ------------------------------------------------------------------------- *)

Lemma baseGrid_ok :
  Forall (fun x =>
      1 ≤ baseGrid x.1 x.2 ≤ 9 ∧
      Forall (fun y => y ≠ x → sameUnit x.1 x.2 y.1 y.2 →
                       baseGrid x.1 x.2 ≠ baseGrid y.1 y.2) allCells)
    allCells.
Proof. apply (bool_decide_unpack _). vm_compute. done. Qed.

Lemma baseGrid_range (r c : nat) : inRange r c → 1 ≤ baseGrid r c ≤ 9.
Proof. intros Hrc. by destruct (Forall_allCells _ baseGrid_ok r c Hrc). Qed.

Lemma baseGrid_distinct (r c r' c' : nat) :
  inRange r c → inRange r' c' → (r', c') ≠ (r, c) → sameUnit r c r' c' →
  baseGrid r c ≠ baseGrid r' c'.
Proof.
  intros Hrc Hrc' Hne Hunit.
  destruct (Forall_allCells _ baseGrid_ok r c Hrc) as [_ Hall].
  by apply (Forall_allCells _ Hall r' c' Hrc').
Qed.

Lemma baseGrid_first_row (c : nat) : c < GRID_SIZE → baseGrid 0 c = c + 1.
Proof.
  intros Hc. unfold baseGrid.
  change (3 * (0 mod 3) + 0 / 3 + c) with c. by rewrite Nat.mod_small.
Qed.

Lemma completes_partialValid (sol : nat → nat → nat) (b : Board) :
  wfBoard b → completes sol b → partialValid b.
Proof.
  intros Hwf (Hrange & Hdistinct & Hagree). split; [done |]. split.
  - intros r c r' c' Hrc Hrc' Hne Hunit Hfilled Heq.
    apply (Hdistinct r c r' c'); try done.
    rewrite <- (Hagree r c), <- (Hagree r' c') by congruence. done.
  - intros r c Hrc. destruct (decide (cell b r c = BLANK)) as [-> | Hfilled].
    + unfold BLANK. lia.
    + rewrite (Hagree r c) by done. by apply Hrange.
Qed.

Section seeded.
Context (p : list nat) (Hp : p ≡ₚ digits).

Lemma seed_length : length p = GRID_SIZE.
Proof using Hp. by rewrite Hp. Qed.

Lemma seed_elem (x : nat) : x ∈ p → 1 ≤ x ≤ 9.
Proof using Hp.
  rewrite Hp. intros Hin. apply list_elem_of_In, in_seq in Hin.
  unfold GRID_SIZE in *. lia.
Qed.

Lemma seed_lookup (i : nat) : i < GRID_SIZE → 1 ≤ p !!! i ≤ 9.
Proof using Hp.
  intros Hi. apply seed_elem, list_elem_of_lookup_total_2.
  by rewrite seed_length.
Qed.

Lemma seed_lookup_inj (i j : nat) :
  i < GRID_SIZE → j < GRID_SIZE → p !!! i = p !!! j → i = j.
Proof using Hp.
  intros Hi Hj Heq.
  assert (NoDup p) as Hnd by (rewrite Hp; apply NoDup_seq).
  apply (NoDup_lookup p i j (p !!! i)); [done | |].
  - apply list_lookup_lookup_total_lt. by rewrite seed_length.
  - rewrite Heq. apply list_lookup_lookup_total_lt. by rewrite seed_length.
Qed.

Lemma wfBoard_seedBoard : wfBoard (seedBoard p).
Proof using Hp.
  destruct wfBoard_empty as [Hl Hrows]. split.
  - unfold seedBoard. by rewrite length_insert.
  - unfold seedBoard. apply Forall_insert; [done | apply seed_length].
Qed.

Lemma cell_seedBoard_first (c : nat) : cell (seedBoard p) 0 c = p !!! c.
Proof. reflexivity. Qed.

Lemma cell_seedBoard_rest (r c : nat) :
  0 < r → inRange r c → cell (seedBoard p) r c = BLANK.
Proof.
  intros Hr Hrc. unfold cell, seedBoard.
  rewrite list_lookup_total_insert_ne by lia.
  apply cell_getEmptyBoard; apply Hrc.
Qed.

Lemma relabel_completes : completes (relabel p) (seedBoard p).
Proof using Hp.
  split; [| split].
  - intros r c Hrc. unfold relabel. apply seed_lookup.
    pose proof (baseGrid_range r c Hrc). unfold GRID_SIZE. lia.
  - intros r c r' c' Hrc Hrc' Hne Hunit Heq. unfold relabel in Heq.
    pose proof (baseGrid_range r c Hrc).
    pose proof (baseGrid_range r' c' Hrc').
    apply seed_lookup_inj in Heq; [| unfold GRID_SIZE; lia ..].
    apply (baseGrid_distinct r c r' c'); try done. lia.
  - intros r c Hrc Hfilled. destruct r as [| r].
    + rewrite cell_seedBoard_first. unfold relabel.
      rewrite baseGrid_first_row by apply Hrc. f_equal. lia.
    + rewrite cell_seedBoard_rest in Hfilled by (done || lia). done.
Qed.

Lemma partialValid_seedBoard : partialValid (seedBoard p).
Proof using Hp.
  apply (completes_partialValid (relabel p));
    [apply wfBoard_seedBoard | apply relabel_completes].
Qed.
End seeded.

Section generator.
Context {G : Type} `{RandomSourceLaws G}.

(** The call [solveSudoku(board)] made by [generateFullBoard] returns
    [true], whatever the random source, and the board returned is the one
    that call filled. *)
Lemma generateFullBoard_succeeds (g : G) :
  ∃ b g',
    solveSudoku solveFuel (seedBoard (shuffle9 g).1) (shuffle9 g).2
      = Some (true, b, g') ∧
    generateFullBoard g = Some (b, g') ∧
    validSolution b.
Proof.
  pose proof (shuffle9_perm g) as Hp. unfold generateFullBoard.
  destruct (shuffle9 g) as [p g1]. cbn [fst snd] in *.
  destruct (solveSudoku_complete (relabel p) solveFuel (seedBoard p) g1)
    as (b & g' & E).
  - by apply wfBoard_seedBoard.
  - by apply relabel_completes.
  - pose proof (countBlank_le (seedBoard p)). unfold solveFuel. lia.
  - exists b, g'. rewrite E. split; [done |]. split; [done |].
    apply solveSudoku_sound in E as [Hpv Hfull];
      [| by apply partialValid_seedBoard].
    by apply full_valid.
Qed.
End generator.

(* ------------------------------------------------------------------------- *)
(** ** [generatePuzzle] *)
(* ------------------------------------------------------------------------- *)

Lemma countNonBlank_full (b : Board) :
  full b → countNonBlank b = GRID_SIZE * GRID_SIZE.
Proof.
  intros Hfull. unfold countNonBlank. rewrite <- length_allCells.
  apply filter_length_all. intros [r c] Hin.
  apply elem_of_allCells in Hin. by apply Hfull.
Qed.

Lemma countNonBlank_lt_blank (b : Board) :
  countNonBlank b < GRID_SIZE * GRID_SIZE →
  ∃ r c, inRange r c ∧ cell b r c = BLANK.
Proof.
  unfold countNonBlank. rewrite <- length_allCells. intros Hlt.
  apply filter_length_lt_exists in Hlt as ([r c] & Hin & Hblank).
  exists r, c. split; [by apply elem_of_allCells |].
  simpl in Hblank. by destruct (decide (cell b r c = BLANK)).
Qed.

Lemma validSolution_full (b : Board) : validSolution b → full b.
Proof.
  intros Hvalid r c Hrc.
  pose proof (validSolution_row_digit b r c Hvalid Hrc). unfold BLANK. lia.
Qed.

Lemma removalBudget_values :
  removalBudget "Easy" = 30 ∧ removalBudget "Medium" = 45 ∧
  removalBudget "Hard" = 55.
Proof. done. Qed.

Section puzzle.
Context {G : Type} `{RandomSourceLaws G}.

Lemma removeCells_spec (fuel : nat) :
  ∀ attempts puzzle (g : G) puzzle' g',
    wfBoard puzzle →
    removeCells fuel attempts puzzle g = Some (puzzle', g') →
    wfBoard puzzle' ∧
    countNonBlank puzzle = attempts + countNonBlank puzzle' ∧
    ∀ r c, inRange r c →
      cell puzzle' r c = cell puzzle r c ∨ cell puzzle' r c = BLANK.
Proof.
  induction fuel as [| fuel IH]; intros attempts puzzle g puzzle' g' Hwf Hrun;
    simpl in Hrun; destruct (Nat.eqb_spec attempts 0) as [-> | E];
    simplify_eq; try by auto.
  pose proof (randIndex_lt g) as Hrow. destruct (randIndex g) as [row g1].
  pose proof (randIndex_lt g1) as Hcol. destruct (randIndex g1) as [col g2].
  simpl in Hrow, Hcol.
  destruct (cell puzzle row col =? BLANK) eqn:Ec; simpl in Hrun.
  - by apply IH in Hrun.
  - apply Nat.eqb_neq in Ec.
    apply IH in Hrun as (Hwf' & Hcount & Hcells);
      [| by apply wfBoard_setCell].
    split; [done |]. split.
    + rewrite (countNonBlank_blank puzzle row col) by done. lia.
    + intros r c Hrc. destruct (Hcells r c Hrc) as [Hsame | Hblank];
        [| by right].
      rewrite Hsame, cell_setCell by done. case_decide; auto.
Qed.

(** The bound is only a device of the model: once a run returns, a larger
    bound returns the same. *)
Lemma removeCells_more_fuel (fuel : nat) :
  ∀ fuel' attempts puzzle (g : G) res,
    removeCells fuel attempts puzzle g = Some res → fuel ≤ fuel' →
    removeCells fuel' attempts puzzle g = Some res.
Proof.
  induction fuel as [| fuel IH]; intros fuel' attempts puzzle g res Hrun Hle.
  - destruct fuel'; simpl in *; by destruct (attempts =? 0).
  - destruct fuel' as [| fuel']; [lia |]. simpl in *.
    destruct (attempts =? 0); [done |].
    destruct (randIndex g) as [row g1], (randIndex g1) as [col g2].
    destruct (negb (cell puzzle row col =? BLANK)); apply IH; (done || lia).
Qed.

Lemma generatePuzzle_spec (fuel : nat) (difficulty : string) (g : G)
    (sol puz : Board) (g' : G) :
  generatePuzzle fuel difficulty g = Some (sol, puz, g') →
  validSolution sol ∧ wfBoard puz ∧
  (∀ r c, inRange r c →
     cell puz r c ≠ BLANK → cell puz r c = cell sol r c) ∧
  countNonBlank puz + removalBudget difficulty = GRID_SIZE * GRID_SIZE.
Proof.
  unfold generatePuzzle. intros Hrun.
  destruct (generateFullBoard_succeeds g) as (b & g1 & _ & Egen & Hvalid).
  rewrite Egen in Hrun. rewrite copyBoard_id in Hrun.
  destruct (removeCells fuel (removalBudget difficulty) b g1)
    as [[puz' g2] |] eqn:Erem; [| done].
  simplify_eq.
  apply removeCells_spec in Erem as (Hwf & Hcount & Hcells);
    [| apply Hvalid].
  split; [done |]. split; [done |]. split.
  - intros r c Hrc Hfilled. by destruct (Hcells r c Hrc).
  - rewrite (countNonBlank_full sol) in Hcount
      by by apply validSolution_full.
    lia.
Qed.

(** The generated puzzle always differs from its solution somewhere. *)
Lemma generatePuzzle_has_blank (fuel : nat) (difficulty : string) (g : G)
    (sol puz : Board) (g' : G) :
  generatePuzzle fuel difficulty g = Some (sol, puz, g') →
  ∃ r c, inRange r c ∧ cell puz r c = BLANK.
Proof.
  intros Hrun.
  apply generatePuzzle_spec in Hrun as (_ & _ & _ & Hcount).
  assert (0 < removalBudget difficulty) as Hpos.
  { unfold removalBudget. repeat case_match; lia. }
  apply countNonBlank_lt_blank. lia.
Qed.
End puzzle.

(* ------------------------------------------------------------------------- *)
(** ** The demo source is a random source; the demo game *)
(* ------------------------------------------------------------------------- *)

Lemma rotate_perm {A : Type} (n : nat) (l : list A) : rotate n l ≡ₚ l.
Proof.
  unfold rotate. rewrite Permutation_app_comm. by rewrite take_drop.
Qed.

#[export] Instance demoSource_laws : RandomSourceLaws DemoRng.
Proof.
  split.
  - intros g. simpl. apply rotate_perm.
  - intros [x ph]. destruct ph.
    + change ((x mod 81) mod 9 < 9). by apply Nat.mod_upper_bound.
    + change ((x mod 81) / 9 < 9). apply Nat.Div0.div_lt_upper_bound.
      by apply (Nat.mod_upper_bound x 81).
Qed.

Lemma demo_generatePuzzle :
  generatePuzzle 200 "Easy" demoStart = Some (demoSolution, demoPuzzle, demoEnd).
Proof. vm_compute. reflexivity. Qed.

Lemma demo_startNewGame :
  startNewGame 200 "Easy" false demoStart = Some (demoSession, demoEnd).
Proof. unfold startNewGame. by rewrite demo_generatePuzzle. Qed.

(* ------------------------------------------------------------------------- *)
(** ** Generation: main results *)
(* ------------------------------------------------------------------------- *)

(** C1.  Whatever the random source, [generateFullBoard] returns a board, and
    in every board returned as [solution] by [generatePuzzle] each row, each
    column and each 3x3 box holds each of the digits 1..9 exactly once (its
    nine cells are a rearrangement of 1..9). *)
Theorem generated_solution_valid {G : Type} `{RandomSourceLaws G} :
  (∀ g : G, ∃ b g', generateFullBoard g = Some (b, g') ∧ validSolution b) ∧
  (∀ fuel difficulty (g : G) sol puz g',
     generatePuzzle fuel difficulty g = Some (sol, puz, g') →
     validSolution sol).
Proof.
  split.
  - intros g. destruct (generateFullBoard_succeeds g) as (b & g' & _ & E & Hv).
    by exists b, g'.
  - intros fuel difficulty g sol puz g' Hrun.
    by apply generatePuzzle_spec in Hrun as (Hv & _).
Qed.

Lemma generated_solution_valid_witness :
  generatePuzzle 200 "Easy" demoStart = Some (demoSolution, demoPuzzle, demoEnd)
  ∧ validSolution demoSolution.
Proof.
  split; [exact demo_generatePuzzle |].
  exact (proj2 (generated_solution_valid (G := DemoRng))
           200 "Easy"%string demoStart demoSolution demoPuzzle demoEnd
           demo_generatePuzzle).
Defined.

(** C2.  For each difficulty Easy, Medium, Hard and every pair returned by
    [generatePuzzle]: each non-blank puzzle cell equals the solution's cell
    at that coordinate, and the number of non-blank puzzle cells is 81 minus
    the removal budget (30, 45, 55), so 51 for Easy and 26 for Hard. *)
Theorem generatePuzzle_consistent_count {G : Type} `{RandomSourceLaws G}
    (fuel : nat) (difficulty : string) (g : G) (sol puz : Board) (g' : G) :
  difficulty ∈ difficulties →
  generatePuzzle fuel difficulty g = Some (sol, puz, g') →
  (∀ r c, inRange r c → cell puz r c ≠ BLANK → cell puz r c = cell sol r c) ∧
  countNonBlank puz = 81 - removalBudget difficulty ∧
  (removalBudget "Easy" = 30 ∧ removalBudget "Medium" = 45 ∧
   removalBudget "Hard" = 55) ∧
  (difficulty = "Easy"%string → countNonBlank puz = 51) ∧
  (difficulty = "Medium"%string → countNonBlank puz = 36) ∧
  (difficulty = "Hard"%string → countNonBlank puz = 26).
Proof.
  intros Hdiff Hrun.
  apply generatePuzzle_spec in Hrun as (_ & _ & Hcells & Hcount).
  unfold GRID_SIZE in Hcount.
  split; [done |]. split; [lia |]. split; [done |].
  repeat split; intros ->; vm_compute removalBudget in Hcount; lia.
Qed.

Lemma generatePuzzle_consistent_count_witness :
  generatePuzzle 200 "Easy" demoStart = Some (demoSolution, demoPuzzle, demoEnd)
  ∧ countNonBlank demoPuzzle = 51
  ∧ cell demoPuzzle 0 4 = cell demoSolution 0 4.
Proof.
  destruct (generatePuzzle_consistent_count (G := DemoRng)
              200 "Easy"%string demoStart demoSolution demoPuzzle demoEnd)
    as (Hcells & _ & _ & Heasy & _).
  - by left.
  - exact demo_generatePuzzle.
  - split; [exact demo_generatePuzzle |]. split; [by apply Heasy |].
    apply Hcells; [split; vm_compute; lia | vm_compute; lia].
Defined.




(* ------------------------------------------------------------------------- *)
(** ** Memo arrays: [includes], [filter], [sort] *)
(* ------------------------------------------------------------------------- *)

Lemma includes_elem (l : list nat) (n : nat) : includes l n = true ↔ n ∈ l.
Proof.
  unfold includes. rewrite existsb_exists. split.
  - intros (x & Hin & Heq). apply Nat.eqb_eq in Heq. subst.
    by apply list_elem_of_In.
  - intros Hin. exists n. split; [by apply list_elem_of_In |].
    apply Nat.eqb_refl.
Qed.

(** On one-character strings the code-unit order is the numeric order. *)
Lemma jsLess_table :
  Forall (fun x => Forall (fun y => jsLess x y = (x <? y)) (seq 0 10))
    (seq 0 10).
Proof. apply (bool_decide_unpack _). vm_compute. done. Qed.

Lemma jsLess_lt (x y : nat) : x ≤ 9 → y ≤ 9 → jsLess x y = (x <? y).
Proof.
  intros Hx Hy. pose proof jsLess_table as Htab.
  rewrite Forall_forall in Htab.
  specialize (Htab x ltac:(apply list_elem_of_In, in_seq; lia)).
  rewrite Forall_forall in Htab.
  apply Htab. apply list_elem_of_In, in_seq. lia.
Qed.

Lemma jsInsert_perm (x : nat) (l : list nat) : jsInsert x l ≡ₚ x :: l.
Proof.
  induction l as [| y l IH]; simpl; [done |].
  destruct (jsLess x y); [done |]. rewrite IH. apply Permutation_swap.
Qed.

Lemma jsInsert_sorted (x : nat) (l : list nat) :
  x ≤ 9 → Forall (fun d => d ≤ 9) l →
  StronglySorted le l → StronglySorted le (jsInsert x l).
Proof.
  intros Hx. induction l as [| y l IH]; intros Hl Hsorted; simpl.
  - by repeat constructor.
  - apply Forall_cons in Hl as [Hy Hl].
    apply StronglySorted_inv in Hsorted as [Hsorted Hall].
    rewrite jsLess_lt by done. destruct (Nat.ltb_spec x y) as [Hlt | Hge].
    + constructor; [by constructor |].
      constructor; [lia |]. eapply Forall_impl; [exact Hall |].
      simpl. intros z Hz. lia.
    + constructor; [by apply IH |].
      rewrite jsInsert_perm. by constructor.
Qed.

Lemma jsSort_from (acc l : list nat) :
  Forall (fun d => d ≤ 9) acc → Forall (fun d => d ≤ 9) l →
  StronglySorted le acc →
  StronglySorted le (foldl (fun a x => jsInsert x a) acc l) ∧
  foldl (fun a x => jsInsert x a) acc l ≡ₚ acc ++ l.
Proof.
  revert acc. induction l as [| x l IH]; intros acc Hacc Hl Hsorted; simpl.
  - by rewrite app_nil_r.
  - apply Forall_cons in Hl as [Hx Hl].
    destruct (IH (jsInsert x acc)) as [Hs Hp]; try done.
    + rewrite jsInsert_perm. by constructor.
    + by apply jsInsert_sorted.
    + split; [done |]. rewrite Hp, jsInsert_perm. simpl.
      apply Permutation_middle.
Qed.

Lemma jsSort_spec (l : list nat) :
  Forall (fun d => d ≤ 9) l → StronglySorted le (jsSort l) ∧ jsSort l ≡ₚ l.
Proof.
  intros Hl. unfold jsSort.
  destruct (jsSort_from [] l) as [Hs Hp]; try done. constructor.
Qed.

Lemma sorted_le_NoDup_lt (l : list nat) :
  StronglySorted le l → NoDup l → StronglySorted lt l.
Proof.
  induction l as [| x l IH]; intros Hsorted Hnd; [constructor |].
  apply StronglySorted_inv in Hsorted as [Hsorted Hall].
  apply NoDup_cons in Hnd as [Hx Hnd].
  constructor; [by apply IH |].
  rewrite Forall_forall in Hall. apply Forall_forall. intros y Hy.
  specialize (Hall y Hy). assert (x ≠ y) by (intros ->; done). lia.
Qed.

Lemma sorted_lt_NoDup (l : list nat) : StronglySorted lt l → NoDup l.
Proof.
  induction 1 as [| x l Hsorted IH Hall]; [constructor |].
  constructor; [| done]. intros Hin.
  rewrite Forall_forall in Hall. specialize (Hall x Hin). lia.
Qed.

Lemma sorted_filter (P : nat → Prop) `{!∀ x, Decision (P x)} (l : list nat) :
  StronglySorted lt l → StronglySorted lt (filter P l).
Proof.
  induction 1 as [| x l Hsorted IH Hall]; [constructor |].
  rewrite filter_cons. destruct (decide (P x)); [| done].
  constructor; [done |]. apply Forall_forall. intros y Hy.
  apply list_elem_of_filter in Hy as [_ Hy].
  rewrite Forall_forall in Hall. by apply Hall.
Qed.

Lemma memoListOk_nil : memoListOk [].
Proof. split; constructor. Qed.

Lemma memoListOk_filter (P : nat → Prop) `{!∀ x, Decision (P x)}
    (l : list nat) :
  memoListOk l → memoListOk (filter P l).
Proof.
  intros [Hsorted Hdig]. split; [by apply sorted_filter |].
  apply Forall_forall. intros y Hy.
  apply list_elem_of_filter in Hy as [_ Hy].
  rewrite Forall_forall in Hdig. by apply Hdig.
Qed.

Lemma memoListOk_add (l : list nat) (num : nat) :
  memoListOk l → 1 ≤ num ≤ 9 → num ∉ l →
  memoListOk (jsSort (l ++ [num])) ∧ jsSort (l ++ [num]) ≡ₚ l ++ [num].
Proof.
  intros [Hsorted Hdig] Hnum Hnotin.
  assert (Forall (fun d => 1 ≤ d ≤ 9) (l ++ [num])) as Hall.
  { apply Forall_app. split; [done |]. constructor; [done | constructor]. }
  destruct (jsSort_spec (l ++ [num])) as [Hs Hp].
  { eapply Forall_impl; [exact Hall |]. simpl. intros. lia. }
  split; [| done]. split.
  - apply sorted_le_NoDup_lt; [done |]. rewrite Hp.
    apply NoDup_app. split; [by apply sorted_lt_NoDup |]. split.
    + intros x Hx Hx'. apply list_elem_of_singleton in Hx'. by subst.
    + apply NoDup_singleton.
  - by rewrite Hp.
Qed.

(* ------------------------------------------------------------------------- *)
(** ** The handlers keep the session invariant *)
(* ------------------------------------------------------------------------- *)

Lemma checkCompletion_true_iff (b sol : Board) :
  checkCompletion b sol = true ↔
  ∀ r c, inRange r c → cell b r c = cell sol r c.
Proof.
  unfold checkCompletion. rewrite forallb_forall. split.
  - intros Hall r c [Hr Hc].
    specialize (Hall r ltac:(apply in_seq; lia)).
    rewrite forallb_forall in Hall.
    specialize (Hall c ltac:(apply in_seq; lia)). by apply Nat.eqb_eq.
  - intros Hall r Hr. apply in_seq in Hr. apply forallb_forall.
    intros c Hc. apply in_seq in Hc. apply Nat.eqb_eq, Hall. split; lia.
Qed.

Lemma validSolution_not_blank (sol : Board) (r c : nat) :
  validSolution sol → inRange r c → cell sol r c ≠ BLANK.
Proof. intros Hv Hrc. by apply validSolution_full. Qed.

(** Writing any value into an editable cell and re-running the completion
    check. *)
Lemma sessionInv_write (s : Session) (r c v : nat)
    (mem : gmap string (list nat)) (mode : bool) (mis : nat) :
  sessionInv s → inRange r c → cell (initialBoard s) r c = BLANK →
  map_Forall (fun _ l => memoListOk l) mem →
  sessionInv
    (mkSession (initialBoard s) (setCell (board s) r c v) (solution s)
       (Some (r, c)) mem mode mis
       (checkCompletion (setCell (board s) r c v) (solution s))).
Proof.
  intros Hinv Hrc Hinit Hmem. constructor; simpl.
  - apply wfBoard_setCell, Hinv.
  - apply Hinv.
  - by intros r' c' [= <- <-].
  - intros r' c' Hrc' Hgiven. rewrite cell_setCell_ne by congruence.
    by apply Hinv.
  - apply checkCompletion_true_iff.
  - done.
Qed.

Lemma handleNumberInput_inv (s : Session) (num : nat) :
  sessionInv s → 1 ≤ num ≤ 9 → sessionInv (handleNumberInput s num).
Proof.
  intros Hinv Hnum. unfold handleNumberInput.
  destruct (isComplete s) eqn:Hc; [done |].
  destruct (selectedCell s) as [[r c] |] eqn:Hsel; [| done].
  pose proof (inv_selected s Hinv r c Hsel) as Hrc.
  destruct (Nat.eqb_spec (cell (initialBoard s) r c) BLANK) as [Hinit | ?];
    simpl; [| done].
  destruct (isMemoMode s) eqn:Hmemo.
  - pose proof (inv_complete s Hinv) as Hcomp. rewrite Hc in Hcomp.
    constructor; simpl; try apply Hinv; try done.
    + by intros r' c' [= <- <-].
    + assert (memoListOk (default [] (memos s !! memoKey r c))) as Hcur.
      { destruct (memos s !! memoKey r c) as [l |] eqn:E; simpl.
        - apply (map_Forall_lookup_1 _ _ _ _ (inv_memos s Hinv) E).
        - apply memoListOk_nil. }
      apply map_Forall_insert_2; [| apply Hinv].
      destruct (includes _ num) eqn:Einc.
      * by apply memoListOk_filter.
      * apply memoListOk_add; try done.
        rewrite <- includes_elem. by rewrite Einc.
  - rewrite copyBoard_id.
    destruct (cell (board s) r c =? num).
    + apply sessionInv_write; try done. apply Hinv.
    + destruct (negb (num =? cell (solution s) r c)).
      * apply sessionInv_write; try done. apply Hinv.
      * apply sessionInv_write; try done.
        destruct (memos s !! memoKey r c); [| apply Hinv].
        apply map_Forall_delete, Hinv.
Qed.

Lemma handleErase_inv (s : Session) : sessionInv s → sessionInv (handleErase s).
Proof.
  intros Hinv. unfold handleErase.
  destruct (isComplete s) eqn:Hc; [done |].
  destruct (selectedCell s) as [[r c] |] eqn:Hsel; [| done].
  pose proof (inv_selected s Hinv r c Hsel) as Hrc.
  destruct (Nat.eqb_spec (cell (initialBoard s) r c) BLANK) as [Hinit | ?];
    simpl; [| done].
  rewrite copyBoard_id. constructor; simpl; try apply Hinv.
  - apply wfBoard_setCell, Hinv.
  - by intros r' c' [= <- <-].
  - intros r' c' Hrc' Hgiven. rewrite cell_setCell_ne by congruence.
    by apply Hinv.
  - split; [done |]. intros Hall. exfalso.
    specialize (Hall r c Hrc).
    rewrite cell_setCell_eq in Hall by (apply Hinv || apply Hrc).
    by apply (validSolution_not_blank (solution s) r c (inv_solution s Hinv)).
Qed.

Lemma setSelectedCell_inv (s : Session) (r c : nat) :
  sessionInv s → inRange r c → sessionInv (setSelectedCell s (r, c)).
Proof.
  intros Hinv Hrc. constructor; simpl; try apply Hinv.
  by intros r' c' [= <- <-].
Qed.

Lemma handleArrow_inv (s : Session) (d : Direction) :
  sessionInv s → sessionInv (handleArrow s d).
Proof.
  intros Hinv. unfold handleArrow.
  destruct (isComplete s); [done |].
  destruct (selectedCell s) as [[r c] |] eqn:Hsel; [| done].
  destruct (inv_selected s Hinv r c Hsel) as [Hr Hc].
  unfold GRID_SIZE in *.
  destruct d; apply setSelectedCell_inv; try done; split;
    unfold GRID_SIZE; lia.
Qed.

Lemma handleEvent_inv (s : Session) (e : Event) :
  sessionInv s → validEvent e → sessionInv (handleEvent s e).
Proof.
  intros Hinv Hvalid. destruct e as [r c | num | | | d]; simpl.
  - by apply setSelectedCell_inv.
  - by apply handleNumberInput_inv.
  - by apply handleErase_inv.
  - constructor; simpl; apply Hinv.
  - by apply handleArrow_inv.
Qed.

Lemma runEvents_inv (es : list Event) (s : Session) :
  sessionInv s → Forall validEvent es → sessionInv (runEvents s es).
Proof.
  revert s. induction es as [| e es IH]; intros s Hinv Hvalid; [done |].
  apply Forall_cons in Hvalid as [He Hes]. simpl.
  apply IH; [| done]. by apply handleEvent_inv.
Qed.

(** The handlers never write [initialBoard] or [solution]. *)
Lemma handleEvent_fixed (s : Session) (e : Event) :
  initialBoard (handleEvent s e) = initialBoard s ∧
  solution (handleEvent s e) = solution s.
Proof.
  destruct e as [r c | num | | | d]; simpl; try done.
  - unfold handleNumberInput. by repeat case_match.
  - unfold handleErase. by repeat case_match.
  - unfold handleArrow. by repeat case_match.
Qed.

Lemma runEvents_fixed (es : list Event) (s : Session) :
  initialBoard (runEvents s es) = initialBoard s ∧
  solution (runEvents s es) = solution s.
Proof.
  revert s. induction es as [| e es IH]; intros s; [done |]. simpl.
  destruct (IH (handleEvent s e)) as [-> ->]. apply handleEvent_fixed.
Qed.

Section sessions.
Context {G : Type} `{RandomSourceLaws G}.

Lemma newSession_inv (fuel : nat) (difficulty : string) (g g' : G)
    (sol puz : Board) (memoMode : bool) :
  generatePuzzle fuel difficulty g = Some (sol, puz, g') →
  sessionInv (newSession memoMode sol puz).
Proof.
  intros Hgen.
  destruct (generatePuzzle_has_blank _ _ _ _ _ _ Hgen)
    as (r0 & c0 & Hrc0 & Hblank).
  apply generatePuzzle_spec in Hgen as (Hvalid & Hwf & Hcells & _).
  constructor; simpl; rewrite ?copyBoard_id; try done.
  - intros r c Hrc Hgiven. split; [done | by apply Hcells].
  - split; [done |]. intros Hall. exfalso.
    specialize (Hall r0 c0 Hrc0). rewrite Hblank in Hall.
    by apply (validSolution_not_blank sol r0 c0).
Qed.

Lemma startNewGame_inv (fuel : nat) (difficulty : string) (memoMode : bool)
    (g g' : G) (s : Session) :
  startNewGame fuel difficulty memoMode g = Some (s, g') → sessionInv s.
Proof.
  unfold startNewGame. intros Hstart.
  destruct (generatePuzzle fuel difficulty g) as [[[sol puz] g1] |] eqn:E;
    [| done].
  simplify_eq. by eapply newSession_inv.
Qed.

Lemma reachable_inv (s : Session) : reachable (G := G) s → sessionInv s.
Proof.
  induction 1 as [fuel g g' s Hstart | fuel diff g g' s s' _ _ _ Hstart
                 | s e _ IH Hvalid].
  - by eapply startNewGame_inv.
  - by eapply startNewGame_inv.
  - by apply handleEvent_inv.
Qed.

Lemma reachable_runEvents (es : list Event) (s : Session) :
  reachable (G := G) s → Forall validEvent es →
  reachable (G := G) (runEvents s es).
Proof.
  revert s. induction es as [| e es IH]; intros s Hreach Hvalid; [done |].
  apply Forall_cons in Hvalid as [He Hes]. simpl.
  apply IH; [| done]. by apply reach_event.
Qed.
End sessions.

(* ------------------------------------------------------------------------- *)
(** ** [handleNumberInput], branch by branch *)
(* ------------------------------------------------------------------------- *)

Section number_input.
Context (s : Session) (r c : nat).
Context (Hlive : isComplete s = false).
Context (Hsel : selectedCell s = Some (r, c)).
Context (Heditable : cell (initialBoard s) r c = BLANK).

(** Normal mode, a digit other than the one in the cell. *)
Lemma handleNumberInput_place (num : nat) :
  isMemoMode s = false → cell (board s) r c ≠ num →
  handleNumberInput s num =
    mkSession (initialBoard s) (setCell (board s) r c num) (solution s)
      (Some (r, c))
      (if decide (num = cell (solution s) r c)
       then delete (memoKey r c) (memos s) else memos s)
      false
      (if decide (num = cell (solution s) r c)
       then mistakes s else S (mistakes s))
      (checkCompletion (setCell (board s) r c num) (solution s)).
Proof using Hlive Hsel Heditable.
  intros Hmode Hother. unfold handleNumberInput.
  rewrite Hlive, Hsel, Heditable, Hmode, copyBoard_id. simpl.
  destruct (Nat.eqb_spec (cell (board s) r c) num) as [| _]; [done |].
  destruct (Nat.eqb_spec num (cell (solution s) r c)) as [Heq | Hne]; simpl;
    case_decide; try done.
  f_equal. destruct (memos s !! memoKey r c) eqn:E; [done |].
  by rewrite delete_id.
Qed.

(** Normal mode, the digit the cell already holds. *)
Lemma handleNumberInput_toggle_off (num : nat) :
  isMemoMode s = false → cell (board s) r c = num →
  handleNumberInput s num =
    mkSession (initialBoard s) (setCell (board s) r c BLANK) (solution s)
      (Some (r, c)) (memos s) false (mistakes s)
      (checkCompletion (setCell (board s) r c BLANK) (solution s)).
Proof using Hlive Hsel Heditable.
  intros Hmode Hsame. unfold handleNumberInput.
  rewrite Hlive, Hsel, Heditable, Hmode, copyBoard_id. simpl.
  by rewrite Hsame, Nat.eqb_refl.
Qed.

(** Memo mode. *)
Lemma handleNumberInput_memo (num : nat) :
  isMemoMode s = true →
  handleNumberInput s num =
    mkSession (initialBoard s) (board s) (solution s) (Some (r, c))
      (<[memoKey r c :=
           let currentMemos := default [] (memos s !! memoKey r c) in
           if includes currentMemos num
           then filter (fun n => n ≠ num) currentMemos
           else jsSort (currentMemos ++ [num])]> (memos s))
      true (mistakes s) false.
Proof using Hlive Hsel Heditable.
  intros Hmode. unfold handleNumberInput.
  by rewrite Hlive, Hsel, Heditable, Hmode.
Qed.
End number_input.

Lemma handleNumberInput_complete (s : Session) (num : nat) :
  isComplete s = true → handleNumberInput s num = s.
Proof. intros Hdone. unfold handleNumberInput. by rewrite Hdone. Qed.

Lemma filter_ne_all_eq (l : list nat) (num : nat) :
  (∀ x, x ∈ l → x = num) → filter (fun n => n ≠ num) l = [].
Proof.
  induction l as [| y l IH]; intros Hall; [done |].
  rewrite filter_cons, decide_False.
  - apply IH. intros x Hx. apply Hall. by right.
  - intros Hne. apply Hne, Hall. left.
Qed.

Lemma demoSession_reachable : reachable (G := DemoRng) demoSession.
Proof. exact (reach_mount 200 demoStart demoEnd demoSession demo_startNewGame). Qed.

Lemma demo_runEvents_reachable (es : list Event) :
  bool_decide (Forall validEvent es) = true →
  reachable (G := DemoRng) (runEvents demoSession es).
Proof.
  intros Hvalid. apply reachable_runEvents; [apply demoSession_reachable |].
  by apply bool_decide_eq_true in Hvalid.
Qed.

(* ------------------------------------------------------------------------- *)
(** ** The session: main results *)
(* ------------------------------------------------------------------------- *)

(** C3 (as amended).  With memo mode off, a live game and an editable cell
    selected: entering the digit that equals the solution at that cell
    removes the cell's memo entry from the map at once (the key is absent
    afterwards, every other entry is kept); entering a digit that differs
    from the solution leaves the map exactly as it was. *)
Theorem correct_digit_clears_memo (s : Session) (r c num : nat) :
  isComplete s = false → selectedCell s = Some (r, c) →
  cell (initialBoard s) r c = BLANK → isMemoMode s = false →
  cell (board s) r c ≠ num →
  (num = cell (solution s) r c →
     memos (handleNumberInput s num) = delete (memoKey r c) (memos s) ∧
     memos (handleNumberInput s num) !! memoKey r c = None) ∧
  (num ≠ cell (solution s) r c →
     memos (handleNumberInput s num) = memos s).
Proof.
  intros Hlive Hsel Hedit Hmode Hother.
  rewrite (handleNumberInput_place s r c Hlive Hsel Hedit num Hmode Hother).
  simpl. split; intros Hnum.
  - rewrite decide_True by done. split; [done | apply lookup_delete_eq].
  - by rewrite decide_False.
Qed.

Lemma correct_digit_clears_memo_witness :
  memos demoMemoThenNormal !! memoKey 0 0 = Some [2] ∧
  cell (solution demoMemoThenNormal) 0 0 = 4 ∧
  memos (handleNumberInput demoMemoThenNormal 4) !! memoKey 0 0 = None.
Proof.
  split; [vm_compute; reflexivity |]. split; [reflexivity |].
  assert (cell (board demoMemoThenNormal) 0 0 ≠ 4) as Hother
    by (vm_compute; lia).
  destruct (correct_digit_clears_memo demoMemoThenNormal 0 0 4
              eq_refl eq_refl eq_refl eq_refl Hother) as [Hright _].
  exact (proj2 (Hright eq_refl)).
Defined.

(** C3 (as stated) fails: in the demo game, after the memo 2 and then the
    wrong digit 9 at (0, 0), the cell is not blank and the memo entry is
    still in the map. *)
Lemma wrong_digit_keeps_memo_counterexample :
  reachable (G := DemoRng) demoWrongDigit ∧
  cell (board demoWrongDigit) 0 0 = 9 ∧
  cell (solution demoWrongDigit) 0 0 = 4 ∧
  memos demoWrongDigit !! memoKey 0 0 = Some [2].
Proof.
  split; [by apply demo_runEvents_reachable |].
  split; [reflexivity |]. split; [reflexivity |]. vm_compute. reflexivity.
Qed.

(** The placeholder state before the first game is not a session: its board
    equals its "solution" (both are empty) while [isComplete] is false. *)
Lemma mountState_placeholder :
  isComplete mountState = false ∧ board mountState = solution mountState ∧
  ¬ validSolution (solution mountState).
Proof.
  split; [done |]. split; [done |]. intros Hvalid.
  assert (inRange 0 0) as Hrange by (split; unfold GRID_SIZE; lia).
  pose proof (validSolution_row_digit _ 0 0 Hvalid Hrange) as Hdigit.
  vm_compute in Hdigit. lia.
Qed.

(** C4.  In every reachable state [isComplete] is true exactly when the
    current board equals the solution cell for cell.  [handleErase] never
    writes [isComplete] (it runs no completion check), and the equivalence
    holds after it as after every other event. *)
Theorem isComplete_iff_solved {G : Type} `{RandomSourceLaws G} (s : Session) :
  reachable (G := G) s →
  (isComplete s = true ↔
     ∀ r c, inRange r c → cell (board s) r c = cell (solution s) r c) ∧
  isComplete (handleErase s) = isComplete s ∧
  (isComplete (handleErase s) = true ↔
     ∀ r c, inRange r c →
       cell (board (handleErase s)) r c = cell (solution (handleErase s)) r c).
Proof.
  intros Hreach. split; [| split].
  - apply inv_complete. by apply reachable_inv.
  - unfold handleErase. by repeat case_match.
  - apply inv_complete.
    apply (reachable_inv (handleEvent s EraseInput)).
    by apply reach_event.
Qed.

Lemma demoAlmostSolved_reachable : reachable (G := DemoRng) demoAlmostSolved.
Proof. by apply demo_runEvents_reachable. Qed.

Lemma demoSolved_reachable : reachable (G := DemoRng) demoSolved.
Proof.
  apply (reach_event demoAlmostSolved (NumberInput 3));
    [apply demoAlmostSolved_reachable | simpl; lia].
Qed.

Lemma isComplete_iff_solved_witness :
  isComplete demoSolved = true ∧
  (∀ r c, inRange r c →
     cell (board demoSolved) r c = cell (solution demoSolved) r c) ∧
  isComplete demoAlmostSolved = false ∧
  isComplete (handleErase demoAlmostSolved) = false.
Proof.
  destruct (isComplete_iff_solved (G := DemoRng) demoSolved
              demoSolved_reachable) as (Hiff & _ & _).
  destruct (isComplete_iff_solved (G := DemoRng) demoAlmostSolved
              demoAlmostSolved_reachable) as (_ & Herase & _).
  assert (isComplete demoSolved = true) as Hdone by (vm_compute; reflexivity).
  split; [exact Hdone |]. split; [by apply Hiff |].
  assert (isComplete demoAlmostSolved = false) as Hlive
    by (vm_compute; reflexivity).
  split; [exact Hlive |]. by rewrite Herase.
Defined.

(** C5 (as amended).  With memo mode off, a live game and a blank editable
    cell selected, entering [num] twice: the first input puts [num] in the
    cell and adds one mistake exactly when [num] differs from the solution
    there; the second input never changes the mistake count; and it puts the
    cell back to BLANK provided the first input did not complete the board.
    If the first input completed the board (which needs [num] to be the
    solution's digit), the second input is ignored and the cell keeps
    [num]. *)
Theorem double_input_toggles (s : Session) (r c num : nat) :
  wfBoard (board s) → inRange r c →
  isComplete s = false → selectedCell s = Some (r, c) →
  cell (initialBoard s) r c = BLANK → cell (board s) r c = BLANK →
  isMemoMode s = false → 1 ≤ num ≤ 9 →
  let s1 := handleNumberInput s num in
  let s2 := handleNumberInput s1 num in
  cell (board s1) r c = num ∧
  mistakes s1 =
    mistakes s + (if decide (num = cell (solution s) r c) then 0 else 1) ∧
  mistakes s2 = mistakes s1 ∧
  (isComplete s1 = false → cell (board s2) r c = BLANK) ∧
  (isComplete s1 = true →
     s2 = s1 ∧ cell (board s2) r c = num ∧ num = cell (solution s) r c).
Proof.
  intros Hwf [Hr Hc] Hlive Hsel Hedit Hblank Hmode Hnum s1 s2.
  assert (cell (board s) r c ≠ num) as Hother
    by (rewrite Hblank; unfold BLANK; lia).
  pose proof (handleNumberInput_place s r c Hlive Hsel Hedit num Hmode Hother)
    as Es1. fold s1 in Es1.
  assert (cell (board s1) r c = num) as Hcell1.
  { rewrite Es1. simpl. by apply cell_setCell_eq. }
  assert (mistakes s1 =
            mistakes s + (if decide (num = cell (solution s) r c) then 0 else 1))
    as Hmis1.
  { rewrite Es1. simpl. case_decide; lia. }
  split; [done |]. split; [done |].
  destruct (isComplete s1) eqn:Hdone1.
  - assert (s2 = s1) as Es2 by by apply handleNumberInput_complete.
    rewrite Es2. split; [done |]. split; [done |]. intros _.
    split; [done |]. split; [done |].
    rewrite Es1 in Hdone1. simpl in Hdone1.
    rewrite checkCompletion_true_iff in Hdone1.
    specialize (Hdone1 r c (conj Hr Hc)).
    by rewrite cell_setCell_eq in Hdone1.
  - assert (s2 = mkSession (initialBoard s1) (setCell (board s1) r c BLANK)
                   (solution s1) (Some (r, c)) (memos s1) false (mistakes s1)
                   (checkCompletion (setCell (board s1) r c BLANK)
                      (solution s1))) as Es2.
    { apply handleNumberInput_toggle_off; try done; by rewrite Es1. }
    rewrite Es2. simpl. split; [done |]. split; [| done]. intros _.
    apply cell_setCell_eq; try done. rewrite Es1. simpl.
    by apply wfBoard_setCell.
Qed.

Lemma demoMemoThenNormal_reachable :
  reachable (G := DemoRng) demoMemoThenNormal.
Proof.
  by apply (demo_runEvents_reachable
              [ClickCell 0 0; MemoToggle; NumberInput 2; MemoToggle]).
Qed.

Lemma double_input_toggles_witness :
  let s1 := handleNumberInput demoMemoThenNormal 9 in
  let s2 := handleNumberInput s1 9 in
  cell (board s1) 0 0 = 9 ∧
  mistakes s1 = 1 ∧ mistakes s2 = 1 ∧ cell (board s2) 0 0 = BLANK.
Proof.
  intros s1 s2.
  assert (wfBoard (board demoMemoThenNormal)) as Hwf
    by apply (inv_board _ (reachable_inv _ demoMemoThenNormal_reachable)).
  assert (inRange 0 0) as Hrange by (split; unfold GRID_SIZE; lia).
  assert (1 ≤ 9 ≤ 9) as Hnum by lia.
  destruct (double_input_toggles demoMemoThenNormal 0 0 9 Hwf Hrange
              eq_refl eq_refl eq_refl eq_refl eq_refl Hnum)
    as (H1 & H2 & H3 & H4 & _).
  fold s1 in H1, H2, H3, H4. fold s2 in H3, H4.
  split; [exact H1 |]. split; [exact H2 |].
  split; [rewrite H3; exact H2 |]. apply H4. reflexivity.
Defined.

(** C5 (as stated) fails when the first input completes the board: in the
    demo game with only (8, 7) left blank and selected, entering the correct
    digit 3 twice leaves 3 in the cell, not BLANK. *)
Lemma double_input_after_completion_counterexample :
  let s := demoAlmostSolved in
  let s2 := handleNumberInput (handleNumberInput s 3) 3 in
  reachable (G := DemoRng) s ∧
  selectedCell s = Some (8, 7) ∧ isMemoMode s = false ∧
  isComplete s = false ∧
  cell (initialBoard s) 8 7 = BLANK ∧ cell (board s) 8 7 = BLANK ∧
  cell (board s2) 8 7 = 3 ∧ cell (board s2) 8 7 ≠ BLANK.
Proof.
  intros s s2. split; [apply demoAlmostSolved_reachable |].
  repeat split; try (vm_compute; reflexivity). vm_compute. lia.
Qed.

(** C6.  Take any generated pair and the session started from it.  After
    any sequence of events (number inputs and erasures, with any selections,
    arrow moves and mode switches in between), every given cell, i.e. every
    cell that is non-blank in the puzzle, still holds the puzzle's value in
    the current board, and that value is the solution's value there. *)
Theorem given_cells_immutable {G : Type} `{RandomSourceLaws G}
    (fuel : nat) (difficulty : string) (g g' : G) (sol puz : Board)
    (memoMode : bool) (es : list Event) (r c : nat) :
  generatePuzzle fuel difficulty g = Some (sol, puz, g') →
  Forall validEvent es → inRange r c → cell puz r c ≠ BLANK →
  cell (board (runEvents (newSession memoMode sol puz) es)) r c = cell puz r c ∧
  cell puz r c = cell sol r c.
Proof.
  intros Hgen Hvalid Hrc Hgiven.
  pose proof (newSession_inv _ _ _ _ _ _ memoMode Hgen) as Hinv0.
  pose proof (runEvents_inv es _ Hinv0 Hvalid) as Hinv.
  destruct (runEvents_fixed es (newSession memoMode sol puz)) as [Einit Esol].
  simpl in Einit, Esol. rewrite copyBoard_id in Einit.
  destruct (inv_given _ Hinv r c Hrc) as [Hboard Hsolution].
  - by rewrite Einit.
  - rewrite Einit in Hboard, Hsolution. rewrite Esol in Hsolution. done.
Qed.

Lemma given_cells_immutable_witness :
  cell demoPuzzle 0 4 = 8 ∧
  cell (board (runEvents demoSession demoGivenAttack)) 0 4 = 8 ∧
  cell demoSolution 0 4 = 8.
Proof.
  assert (Forall validEvent demoGivenAttack) as Hvalid
    by (apply (bool_decide_unpack _); vm_compute; exact I).
  assert (inRange 0 4) as Hrange by (split; unfold GRID_SIZE; lia).
  assert (cell demoPuzzle 0 4 ≠ BLANK) as Hgiven by (vm_compute; lia).
  destruct (given_cells_immutable (G := DemoRng) 200 "Easy"%string demoStart
              demoEnd demoSolution demoPuzzle false demoGivenAttack 0 4
              demo_generatePuzzle Hvalid Hrange Hgiven) as [Hboard Hsol].
  split; [reflexivity |]. split; [exact Hboard |]. by rewrite <- Hsol.
Defined.

(** C9.  In memo mode, with a live game and an editable cell selected, if
    the cell's memo array holds nothing but [num], entering [num] leaves the
    cell's key in the map, bound to the empty array; the entry is not
    removed. *)
Theorem memo_last_digit_leaves_empty_entry (s : Session) (r c num : nat)
    (l : list nat) :
  isComplete s = false → selectedCell s = Some (r, c) →
  cell (initialBoard s) r c = BLANK → isMemoMode s = true →
  memos s !! memoKey r c = Some l → num ∈ l → (∀ x, x ∈ l → x = num) →
  memos (handleNumberInput s num) = <[memoKey r c := []]> (memos s) ∧
  memos (handleNumberInput s num) !! memoKey r c = Some [].
Proof.
  intros Hlive Hsel Hedit Hmode Hentry Hin Honly.
  rewrite (handleNumberInput_memo s r c Hlive Hsel Hedit num Hmode). simpl.
  rewrite Hentry. simpl.
  apply includes_elem in Hin. rewrite Hin.
  rewrite filter_ne_all_eq by done.
  split; [done | apply lookup_insert_eq].
Qed.

Lemma memo_last_digit_leaves_empty_entry_witness :
  memos demoOneMemo !! memoKey 0 0 = Some [2] ∧
  memos (handleNumberInput demoOneMemo 2) !! memoKey 0 0 = Some [].
Proof.
  assert (memos demoOneMemo !! memoKey 0 0 = Some [2]) as Hentry
    by (vm_compute; reflexivity).
  split; [exact Hentry |].
  refine (proj2 (memo_last_digit_leaves_empty_entry demoOneMemo 0 0 2 [2]
                   eq_refl eq_refl eq_refl eq_refl Hentry _ _)).
  - by left.
  - intros x Hx. by apply list_elem_of_singleton in Hx.
Defined.

(** C10.  In every reachable state every memo array is a duplicate-free
    list of digits 1..9 in ascending order.  A memo-mode input of [num]
    rewrites only the selected cell's entry: when [num] is in the array it is
    filtered out, otherwise it is appended and the array sorted, which gives
    the ascending arrangement of the old digits and [num]. *)
Theorem memos_sorted_digits {G : Type} `{RandomSourceLaws G} (s : Session) :
  reachable (G := G) s →
  map_Forall (fun _ l =>
      StronglySorted lt l ∧ NoDup l ∧ Forall (fun d => 1 ≤ d ≤ 9) l)
    (memos s) ∧
  ∀ r c num,
    isComplete s = false → selectedCell s = Some (r, c) →
    cell (initialBoard s) r c = BLANK → isMemoMode s = true →
    1 ≤ num ≤ 9 →
    let l := default [] (memos s !! memoKey r c) in
    ∃ l', memos (handleNumberInput s num) = <[memoKey r c := l']> (memos s) ∧
          (num ∈ l → l' = filter (fun n => n ≠ num) l) ∧
          (num ∉ l → l' = jsSort (l ++ [num]) ∧ l' ≡ₚ l ++ [num] ∧
                     StronglySorted lt l').
Proof.
  intros Hreach. pose proof (reachable_inv s Hreach) as Hinv. split.
  - intros key l Hentry.
    destruct (inv_memos s Hinv key l Hentry) as [Hsorted Hdigits].
    split; [done |]. split; [by apply sorted_lt_NoDup | done].
  - intros r c num Hlive Hsel Hedit Hmode Hnum l.
    rewrite (handleNumberInput_memo s r c Hlive Hsel Hedit num Hmode). simpl.
    fold l. eexists. split; [reflexivity |].
    assert (memoListOk l) as Hl.
    { unfold l. destruct (memos s !! memoKey r c) as [l0 |] eqn:E; simpl.
      - apply (inv_memos s Hinv _ _ E).
      - apply memoListOk_nil. }
    split.
    + intros Hin. apply includes_elem in Hin. by rewrite Hin.
    + intros Hnotin. destruct (includes l num) eqn:Einc.
      { apply includes_elem in Einc. done. }
      destruct (memoListOk_add l num Hl Hnum Hnotin) as [[Hsorted _] Hperm].
      done.
Qed.

Lemma demoThreeMemos_reachable : reachable (G := DemoRng) demoThreeMemos.
Proof. by apply demo_runEvents_reachable. Qed.

Lemma memos_sorted_digits_witness :
  memos demoThreeMemos !! memoKey 0 0 = Some [2; 5; 7] ∧
  StronglySorted lt [2; 5; 7] ∧ NoDup [2; 5; 7] ∧
  memos (handleNumberInput demoThreeMemos 3) !! memoKey 0 0
    = Some [2; 3; 5; 7].
Proof.
  destruct (memos_sorted_digits (G := DemoRng) demoThreeMemos
              demoThreeMemos_reachable) as [Hall _].
  assert (memos demoThreeMemos !! memoKey 0 0 = Some [2; 5; 7]) as Hentry
    by (vm_compute; reflexivity).
  destruct (Hall _ _ Hentry) as (Hsorted & Hnd & _).
  split; [exact Hentry |]. split; [exact Hsorted |]. split; [exact Hnd |].
  vm_compute. reflexivity.
Defined.


(* ------------------------------------------------------------------------- *)
(** ** The solver on arbitrary boards *)
(* ------------------------------------------------------------------------- *)

Section solver_keeps.
Context {G : Type} `{RandomSource G}.

(** Whatever a call reports, the cells that were filled when it started
    hold the same values when it returns. *)
Lemma tryNums_keeps (rec : Board → G → option (bool * Board * G))
    (r c : nat) (nums : list nat) :
  restores rec →
  (∀ b g b' g', wfBoard b → rec b g = Some (true, b', g') →
     ∀ r' c', inRange r' c' → cell b r' c' ≠ BLANK →
       cell b' r' c' = cell b r' c') →
  inRange r c →
  ∀ b g b' g', wfBoard b → cell b r c = BLANK →
    tryNums rec r c nums b g = Some (true, b', g') →
    ∀ r' c', inRange r' c' → cell b r' c' ≠ BLANK →
      cell b' r' c' = cell b r' c'.
Proof.
  intros Hrest Hrec Hrc.
  induction nums as [| num rest IH]; intros b g b' g' Hwf Hblank Hrun;
    simpl in Hrun; [done |].
  destruct (isSafe b r c num); [| by eapply IH].
  destruct (rec (setCell b r c num) g) as [[[[] b1] g1] |] eqn:E; try done.
  - simplify_eq. intros r' c' Hrc' Hfilled.
    assert ((r', c') ≠ (r, c)) as Hne by (intros [= -> ->]; done).
    rewrite (Hrec _ _ _ _ (wfBoard_setCell b r c num Hwf) E r' c' Hrc');
      rewrite cell_setCell_ne; done.
  - apply Hrest in E; [| by apply wfBoard_setCell]. subst b1.
    rewrite setCell_restore in Hrun by done. by eapply IH.
Qed.

Lemma solveSudoku_keeps (fuel : nat) :
  ∀ b (g : G) b' g', wfBoard b → solveSudoku fuel b g = Some (true, b', g') →
    ∀ r c, inRange r c → cell b r c ≠ BLANK → cell b' r c = cell b r c.
Proof.
  induction fuel as [| fuel IH]; intros b g b' g' Hwf Hrun;
    simpl in Hrun; [done |].
  destruct (findBlank b) as [[r c] |] eqn:E; [| by simplify_eq].
  destruct (shuffle9 g) as [nums g1].
  apply findBlank_Some in E as [Hrc Hblank].
  eapply (tryNums_keeps (solveSudoku fuel)); try done.
  apply solveSudoku_restores.
Qed.
End solver_keeps.

(** A valid solution has no repeated digit among the cells that share a
    row, a column or a box. *)
Lemma fmap_seq_NoDup_ne (f : nat → nat) (i j : nat) :
  NoDup (f <$> seq 0 GRID_SIZE) → i < GRID_SIZE → j < GRID_SIZE → i ≠ j →
  f i ≠ f j.
Proof.
  intros Hnd Hi Hj Hne Heq. apply Hne.
  apply (NoDup_lookup _ i j (f i) Hnd).
  - rewrite list_lookup_fmap, lookup_seq_lt by done. done.
  - rewrite list_lookup_fmap, lookup_seq_lt by done. simpl. by rewrite Heq.
Qed.

Lemma boxPos_inverse :
  Forall (fun rc =>
      boxPos (3 * (rc.1 / 3) + rc.2 / 3) (3 * (rc.1 mod 3) + rc.2 mod 3) = rc ∧
      3 * (rc.1 / 3) + rc.2 / 3 < GRID_SIZE ∧
      3 * (rc.1 mod 3) + rc.2 mod 3 < GRID_SIZE)
    allCells.
Proof. apply (bool_decide_unpack _). vm_compute. done. Qed.

Lemma validSolution_distinct (b : Board) (r c r' c' : nat) :
  validSolution b → inRange r c → inRange r' c' → (r', c') ≠ (r, c) →
  sameUnit r c r' c' → cell b r c ≠ cell b r' c'.
Proof.
  intros [_ Hunits] [Hr Hc] [Hr' Hc'] Hne Hunit.
  assert (NoDup digits) as Hnd by apply NoDup_seq.
  destruct (decide (r' = r)) as [-> | Hrow].
  { destruct (Hunits r Hr) as (Hperm & _ & _).
    apply (fmap_seq_NoDup_ne (fun x => cell b r x)); try done.
    - unfold rowCells in Hperm. by rewrite Hperm.
    - congruence. }
  destruct (decide (c' = c)) as [-> | Hcol].
  { destruct (Hunits c Hc) as (_ & Hperm & _).
    apply (fmap_seq_NoDup_ne (fun x => cell b x c)); try done.
    unfold colCells in Hperm. by rewrite Hperm. }
  destruct Hunit as [? | [? | [Hbr Hbc]]]; [done | done |].
  destruct (Forall_allCells _ boxPos_inverse r c (conj Hr Hc))
    as (Epos & Hk & Hi).
  destruct (Forall_allCells _ boxPos_inverse r' c' (conj Hr' Hc'))
    as (Epos' & _ & Hi').
  cbn [fst snd] in Epos, Epos', Hk, Hi, Hi'. rewrite Hbr, Hbc in Epos'.
  destruct (Hunits _ Hk) as (_ & _ & Hperm). unfold boxCells in Hperm.
  pose proof (fmap_seq_NoDup_ne
                (fun i => cell b (boxPos (3 * (r / 3) + c / 3) i).1
                                 (boxPos (3 * (r / 3) + c / 3) i).2)
                (3 * (r mod 3) + c mod 3) (3 * (r' mod 3) + c' mod 3)) as Hbox.
  cbn beta in Hbox. rewrite Epos, Epos' in Hbox. cbn [fst snd] in Hbox.
  apply Hbox; try done.
  - by rewrite Hperm.
  - intros Heq. rewrite Heq in Epos. congruence.
Qed.

(** A valid solution completes every board that agrees with it on the
    board's filled cells. *)
Lemma validSolution_completes (sol b : Board) :
  validSolution sol →
  (∀ r c, inRange r c → cell b r c ≠ BLANK → cell b r c = cell sol r c) →
  completes (cell sol) b.
Proof.
  intros Hvalid Hagree. split; [| split; [| done]].
  - intros r c Hrc. by apply validSolution_row_digit.
  - intros r c r' c' Hrc Hrc' Hne Hunit.
    by apply validSolution_distinct.
Qed.

Lemma deadEndBoard_wf : wfBoard deadEndBoard.
Proof. apply wfBoard_setCell. apply (bool_decide_unpack _). by vm_compute. Qed.

(** A board can be checked for conflicts cell by cell. *)
Lemma partialValid_check (b : Board) :
  wfBoard b →
  Forall (fun x =>
      cell b x.1 x.2 ≤ 9 ∧
      Forall (fun y => y ≠ x → sameUnit x.1 x.2 y.1 y.2 →
                       cell b x.1 x.2 ≠ BLANK →
                       cell b x.1 x.2 ≠ cell b y.1 y.2) allCells)
    allCells →
  partialValid b.
Proof.
  intros Hwf Hall. split; [done |]. split.
  - intros r c r' c' Hrc Hrc' Hne Hunit Hfilled.
    destruct (Forall_allCells _ Hall r c Hrc) as [_ Hrow].
    by apply (Forall_allCells _ Hrow r' c' Hrc').
  - intros r c Hrc. by destruct (Forall_allCells _ Hall r c Hrc).
Qed.

Lemma deadEndBoard_partialValid : partialValid deadEndBoard.
Proof.
  apply partialValid_check; [apply deadEndBoard_wf |].
  apply (bool_decide_unpack _). by vm_compute.
Qed.

Lemma demoSolution_valid : validSolution demoSolution.
Proof.
  by destruct (generatePuzzle_spec (G := DemoRng) _ _ _ _ _ _
                 demo_generatePuzzle).
Qed.

Lemma demoPuzzle_partialValid : partialValid demoPuzzle.
Proof.
  destruct (generatePuzzle_spec (G := DemoRng) _ _ _ _ _ _
              demo_generatePuzzle) as (Hvalid & Hwf & Hcells & _).
  apply (completes_partialValid (cell demoSolution)); [done |].
  by apply validSolution_completes.
Qed.

Section solver_any_board.
Context {G : Type} `{RandomSourceLaws G}.

(** X1.  Started on a 9x9 board of blanks and digits without conflict, a
    call of [solveSudoku] that returns [true] leaves a valid solution in the
    board, and that solution has every digit of the input where the input
    had it. *)
Theorem solveSudoku_success_extends (fuel : nat) (b : Board) (g : G)
    (b' : Board) (g' : G) :
  partialValid b → solveSudoku fuel b g = Some (true, b', g') →
  validSolution b' ∧
  ∀ r c, inRange r c → cell b r c ≠ BLANK → cell b' r c = cell b r c.
Proof.
  intros Hpv Hrun. split.
  - apply solveSudoku_sound in Hrun as [Hpv' Hfull]; [| done].
    by apply full_valid.
  - apply (solveSudoku_keeps fuel b g b' g'); [apply Hpv | done].
Qed.

(** X3.  The search is exhaustive whatever order the digits are tried in:
    on a board without conflict, with a bound above the number of blanks,
    [solveSudoku] returns, and it returns [true] exactly when the board has
    a completion to a valid grid. *)
Theorem solveSudoku_true_iff_completable (fuel : nat) (b : Board) (g : G) :
  partialValid b → countBlank b < fuel →
  ∃ ok b' g', solveSudoku fuel b g = Some (ok, b', g') ∧
    (ok = true ↔ ∃ sol, completes sol b).
Proof.
  intros Hpv Hfuel.
  destruct (solveSudoku_fuel_enough fuel b g) as [[[ok b'] g'] Hrun];
    [apply Hpv | done |].
  exists ok, b', g'. split; [done |]. split.
  - intros ->. exists (cell b').
    pose proof (solveSudoku_keeps fuel b g b' g' (proj1 Hpv) Hrun) as Hkeep.
    apply solveSudoku_sound in Hrun as [Hpv' Hfull]; [| done].
    apply validSolution_completes; [by apply full_valid |].
    intros r c Hrc Hfilled. symmetry. by apply Hkeep.
  - intros [sol Hsol].
    destruct (solveSudoku_complete sol fuel b g) as (b2 & g2 & Hrun2);
      [apply Hpv | done | done |].
    congruence.
Qed.

(** X5.  Every generated puzzle can be solved by [solveSudoku]: run on the
    puzzle, with any random source, it returns [true] with a valid grid that
    keeps every given.  (The grid need not be the generated solution.) *)
Theorem generated_puzzle_solvable (fuel : nat) (difficulty : string)
    (g g' g2 : G) (sol puz : Board) :
  generatePuzzle fuel difficulty g = Some (sol, puz, g') →
  ∃ b' g3, solveSudoku solveFuel puz g2 = Some (true, b', g3) ∧
    validSolution b' ∧
    ∀ r c, inRange r c → cell puz r c ≠ BLANK → cell b' r c = cell puz r c.
Proof.
  intros Hgen.
  apply generatePuzzle_spec in Hgen as (Hvalid & Hwf & Hcells & _).
  pose proof (validSolution_completes sol puz Hvalid Hcells) as Hsol.
  pose proof (completes_partialValid _ _ Hwf Hsol) as Hpv.
  destruct (solveSudoku_complete (cell sol) solveFuel puz g2)
    as (b' & g3 & Hrun); try done.
  { pose proof (countBlank_le puz). unfold solveFuel. lia. }
  exists b', g3. split; [done |].
  pose proof (solveSudoku_keeps _ _ _ _ _ Hwf Hrun) as Hkeep.
  apply solveSudoku_sound in Hrun as [Hpv' Hfull]; [| done].
  split; [by apply full_valid | done].
Qed.

(** X6.  A difficulty string other than 'Easy' and 'Medium' (so 'Hard', but
    also any unknown string) gets the budget 55: every pair returned for it
    has exactly 26 non-blank puzzle cells. *)
Theorem generatePuzzle_default_budget (fuel : nat) (difficulty : string)
    (g g' : G) (sol puz : Board) :
  difficulty ≠ "Easy"%string → difficulty ≠ "Medium"%string →
  generatePuzzle fuel difficulty g = Some (sol, puz, g') →
  countNonBlank puz = 26 ∧ countBlank puz = 55.
Proof.
  intros Heasy Hmedium Hgen.
  apply generatePuzzle_spec in Hgen as (_ & _ & _ & Hcount).
  assert (removalBudget difficulty = 55) as Hbudget.
  { unfold removalBudget.
    destruct (String.eqb_spec difficulty "Easy"); [done |].
    by destruct (String.eqb_spec difficulty "Medium"). }
  assert (countNonBlank puz + countBlank puz = GRID_SIZE * GRID_SIZE) as Hsum.
  { unfold countNonBlank, countBlank. rewrite <- length_allCells.
    induction allCells as [| [r c] l IH]; [done |].
    rewrite !filter_cons. simpl.
    destruct (decide (cell puz r c = BLANK)) as [Hb | Hb].
    - rewrite decide_False by (intros Hn; done). simpl. lia.
    - rewrite decide_True by done. simpl. lia. }
  unfold GRID_SIZE in *. lia.
Qed.

(** X7.  The removal loop only ends once it has blanked as many cells as
    its budget: started with fewer filled cells than [attempts], it never
    returns, whatever the random source and however long it runs. *)
Theorem removeCells_never_ends_short (fuel attempts : nat) (puzzle : Board)
    (g : G) :
  wfBoard puzzle → countNonBlank puzzle < attempts →
  removeCells fuel attempts puzzle g = None.
Proof.
  intros Hwf Hshort.
  destruct (removeCells fuel attempts puzzle g) as [[puzzle' g'] |] eqn:Hrun;
    [| done].
  apply removeCells_spec in Hrun as (_ & Hcount & _); [| done]. lia.
Qed.
End solver_any_board.

Section solver_bound.
Context {G : Type} `{RandomSource G}.

Lemma tryNums_more_fuel (rec rec' : Board → G → option (bool * Board * G))
    (r c : nat) (nums : list nat) :
  (∀ b g res, rec b g = Some res → rec' b g = Some res) →
  ∀ b g res, tryNums rec r c nums b g = Some res →
             tryNums rec' r c nums b g = Some res.
Proof.
  intros Hrec. induction nums as [| num rest IH]; intros b g res Hrun;
    simpl in *; [done |].
  destruct (isSafe b r c num); [| by apply IH].
  destruct (rec (setCell b r c num) g) as [[[ok b1] g1] |] eqn:E; [| done].
  rewrite (Hrec _ _ _ E). destruct ok; [done | by apply IH].
Qed.

Lemma solveSudoku_more_fuel (fuel : nat) :
  ∀ fuel' b (g : G) res,
    solveSudoku fuel b g = Some res → fuel ≤ fuel' →
    solveSudoku fuel' b g = Some res.
Proof.
  induction fuel as [| fuel IH]; intros fuel' b g res Hrun Hle; [done |].
  destruct fuel' as [| fuel']; [lia |]. simpl in *.
  destruct (findBlank b) as [[r c] |]; [| done].
  destruct (shuffle9 g) as [nums g1].
  eapply tryNums_more_fuel; [| exact Hrun].
  intros b0 g0 res0 Hrec. apply (IH fuel'); [done | lia].
Qed.

(** X4.  [solveSudoku] terminates on every 9x9 board: its recursion never
    goes deeper than the number of blank cells plus one.  In the model, any
    bound above the number of blanks makes the call return, and every such
    bound gives the same answer. *)
Theorem solveSudoku_depth_bounded (fuel fuel' : nat) (b : Board) (g : G) :
  wfBoard b → countBlank b < fuel → countBlank b < fuel' →
  is_Some (solveSudoku fuel b g) ∧
  solveSudoku fuel' b g = solveSudoku fuel b g.
Proof.
  intros Hwf Hfuel Hfuel'.
  destruct (solveSudoku_fuel_enough fuel b g Hwf Hfuel) as [res Hrun].
  split; [by exists res |].
  destruct (solveSudoku_fuel_enough (S (countBlank b)) b g Hwf) as [res0 Hrun0];
    [lia |].
  rewrite (solveSudoku_more_fuel _ fuel b g res0 Hrun0) by lia.
  by rewrite (solveSudoku_more_fuel _ fuel' b g res0 Hrun0) by lia.
Qed.

(** X2.  A call of [solveSudoku] that returns [false] has undone every
    placement it tried: the board is exactly as it was passed in. *)
Theorem solveSudoku_failure_leaves_board (fuel : nat) (b : Board) (g : G)
    (b' : Board) (g' : G) :
  wfBoard b → solveSudoku fuel b g = Some (false, b', g') → b' = b.
Proof. intros Hwf Hrun. by apply (solveSudoku_restores fuel b g b' g'). Qed.
End solver_bound.

Lemma solveSudoku_success_extends_witness :
  solveSudoku solveFuel demoPuzzle demoEnd
    = Some (true, demoSolution, mkDemoRng 91 false) ∧
  validSolution demoSolution ∧
  cell demoSolution 0 4 = cell demoPuzzle 0 4.
Proof.
  assert (solveSudoku solveFuel demoPuzzle demoEnd
            = Some (true, demoSolution, mkDemoRng 91 false)) as Hrun
    by (vm_compute; reflexivity).
  destruct (solveSudoku_success_extends (G := DemoRng) _ _ _ _ _
              demoPuzzle_partialValid Hrun) as [Hvalid Hkeep].
  split; [exact Hrun |]. split; [exact Hvalid |].
  apply Hkeep; [split; unfold GRID_SIZE; lia | vm_compute; lia].
Defined.

Lemma solveSudoku_failure_leaves_board_witness :
  ∃ g', solveSudoku solveFuel deadEndBoard demoStart
          = Some (false, deadEndBoard, g').
Proof.
  assert (solveSudoku solveFuel deadEndBoard demoStart
            = Some (false, [[1; 2; 3; 4; 5; 6; 7; 8; 0];
                            [0; 0; 0; 0; 0; 0; 0; 0; 9];
                            [0; 0; 0; 0; 0; 0; 0; 0; 0];
                            [0; 0; 0; 0; 0; 0; 0; 0; 0];
                            [0; 0; 0; 0; 0; 0; 0; 0; 0];
                            [0; 0; 0; 0; 0; 0; 0; 0; 0];
                            [0; 0; 0; 0; 0; 0; 0; 0; 0];
                            [0; 0; 0; 0; 0; 0; 0; 0; 0];
                            [0; 0; 0; 0; 0; 0; 0; 0; 0]],
                    mkDemoRng 70 false)) as Hrun
    by (vm_compute; reflexivity).
  exists (mkDemoRng 70 false).
  by rewrite <- (solveSudoku_failure_leaves_board (G := DemoRng) _ _ _ _ _
                   deadEndBoard_wf Hrun) at 2.
Defined.

Lemma solveSudoku_true_iff_completable_witness :
  solveSudoku solveFuel deadEndBoard demoStart
    = Some (false, deadEndBoard, mkDemoRng 70 false) ∧
  ¬ ∃ sol, completes sol deadEndBoard.
Proof.
  assert (countBlank deadEndBoard < solveFuel) as Hfuel by (vm_compute; lia).
  destruct (solveSudoku_true_iff_completable (G := DemoRng) solveFuel
              deadEndBoard demoStart deadEndBoard_partialValid Hfuel)
    as (ok & b' & g' & Hrun & Hiff).
  assert (solveSudoku solveFuel deadEndBoard demoStart
            = Some (false, deadEndBoard, mkDemoRng 70 false)) as Erun
    by (vm_compute; reflexivity).
  split; [exact Erun |]. rewrite Erun in Hrun. injection Hrun as <- _ _.
  intros Hsol. apply Hiff in Hsol. discriminate.
Defined.

Lemma solveSudoku_depth_bounded_witness :
  countBlank demoPuzzle = 30 ∧
  is_Some (solveSudoku 31 demoPuzzle demoEnd) ∧
  solveSudoku 82 demoPuzzle demoEnd = solveSudoku 31 demoPuzzle demoEnd.
Proof.
  assert (countBlank demoPuzzle = 30) as Hcount by (vm_compute; reflexivity).
  split; [exact Hcount |].
  apply (solveSudoku_depth_bounded (G := DemoRng) 31 82 demoPuzzle demoEnd);
    [apply demoPuzzle_partialValid | lia | lia].
Defined.

Lemma generated_puzzle_solvable_witness :
  ∃ b' g3, solveSudoku solveFuel demoPuzzle demoStart = Some (true, b', g3) ∧
    validSolution b'.
Proof.
  destruct (generated_puzzle_solvable (G := DemoRng) 200 "Easy"%string
              demoStart demoEnd demoStart demoSolution demoPuzzle
              demo_generatePuzzle) as (b' & g3 & Hrun & Hvalid & _).
  exists b', g3. split; [exact Hrun | exact Hvalid].
Defined.

Lemma generatePuzzle_default_budget_witness :
  ∃ sol puz g', generatePuzzle 400 "Expert" demoStart = Some (sol, puz, g') ∧
    countNonBlank puz = 26.
Proof.
  destruct (generatePuzzle 400 "Expert" demoStart) as [[[sol puz] g'] |] eqn:E;
    [| vm_compute in E; discriminate].
  exists sol, puz, g'. split; [reflexivity |].
  by destruct (generatePuzzle_default_budget (G := DemoRng) 400
                 "Expert"%string demoStart g' sol puz
                 ltac:(discriminate) ltac:(discriminate) E).
Defined.

Lemma removeCells_never_ends_short_witness :
  countNonBlank (seedBoard digits) = 9 ∧
  removeCells 500 10 (seedBoard digits) demoStart = None.
Proof.
  assert (countNonBlank (seedBoard digits) = 9) as Hcount
    by (vm_compute; reflexivity).
  split; [exact Hcount |].
  apply (removeCells_never_ends_short (G := DemoRng));
    [by apply wfBoard_seedBoard | lia].
Defined.

(* ------------------------------------------------------------------------- *)
(** ** What one event can change *)
(* ------------------------------------------------------------------------- *)

(** An event either leaves the board and the mistake count alone, or writes
    one value into the selected editable cell of a live game; in that case
    the count stays when the value is BLANK or the solution's digit, and
    goes up by one otherwise (only a number input does that). *)
Lemma handleEvent_effect (s : Session) (e : Event) :
  (board (handleEvent s e) = board s ∧
   mistakes (handleEvent s e) = mistakes s) ∨
  ∃ r c v,
    isComplete s = false ∧ selectedCell s = Some (r, c) ∧
    cell (initialBoard s) r c = BLANK ∧
    board (handleEvent s e) = setCell (board s) r c v ∧
    ((mistakes (handleEvent s e) = mistakes s ∧
      (v = BLANK ∨ v = cell (solution s) r c)) ∨
     (mistakes (handleEvent s e) = S (mistakes s) ∧ isNumberInput e = true)).
Proof.
  destruct e as [r0 c0 | num | | | d]; simpl; try by left.
  - unfold handleNumberInput.
    destruct (isComplete s) eqn:Hc; [by left |].
    destruct (selectedCell s) as [[r c] |] eqn:Hsel; [| by left].
    destruct (Nat.eqb_spec (cell (initialBoard s) r c) BLANK) as [Hinit | ?];
      simpl; [| by left].
    destruct (isMemoMode s); [by left |].
    rewrite copyBoard_id. right.
    destruct (Nat.eqb_spec (cell (board s) r c) num) as [Hsame | Hother].
    + exists r, c, BLANK. simpl. repeat (split; [done |]). left. auto.
    + destruct (Nat.eqb_spec num (cell (solution s) r c)) as [Hright | Hwrong];
        simpl; exists r, c, num; repeat (split; [done |]); auto.
  - unfold handleErase.
    destruct (isComplete s) eqn:Hc; [by left |].
    destruct (selectedCell s) as [[r c] |] eqn:Hsel; [| by left].
    destruct (Nat.eqb_spec (cell (initialBoard s) r c) BLANK) as [Hinit | ?];
      simpl; [| by left].
    rewrite copyBoard_id. right. exists r, c, BLANK. simpl.
    repeat (split; [done |]). left. auto.
  - unfold handleArrow. left. by repeat case_match.
Qed.

Lemma filter_length_le {A : Type} (P Q : A → Prop)
    `{!∀ x, Decision (P x)} `{!∀ x, Decision (Q x)} (l : list A) :
  (∀ y, y ∈ l → Q y → P y) → length (filter Q l) ≤ length (filter P l).
Proof.
  induction l as [| y l IH]; intros Himp; [done |].
  rewrite !filter_cons.
  assert (length (filter Q l) ≤ length (filter P l)) as Hl
    by (apply IH; intros z Hz; apply Himp; by right).
  assert (Q y → P y) as Hy by (apply Himp; left).
  destruct (decide (P y)), (decide (Q y)); simpl; tauto || lia.
Qed.

Lemma filter_length_le_S {A : Type} (P Q : A → Prop)
    `{!∀ x, Decision (P x)} `{!∀ x, Decision (Q x)} (l : list A) (x : A) :
  NoDup l → (∀ y, y ∈ l → y ≠ x → Q y → P y) →
  length (filter Q l) ≤ S (length (filter P l)).
Proof.
  induction l as [| y l IH]; intros Hnd Himp; [simpl; lia |].
  apply NoDup_cons in Hnd as [Hy Hnd]. rewrite !filter_cons.
  assert (∀ z, z ∈ l → z ≠ x → Q z → P z) as Himp'
    by (intros z Hz; apply Himp; by right).
  destruct (decide (Q y)) as [HQ | HQ]; simpl.
  - destruct (decide (P y)) as [HP | HP]; simpl.
    + specialize (IH Hnd Himp'). lia.
    + assert (length (filter Q l) ≤ length (filter P l)); [| lia].
      apply filter_length_le. intros z Hz HQz.
      apply Himp'; try done. intros ->.
      apply HP, Himp; [left | | done]. intros ->. done.
  - specialize (IH Hnd Himp'). destruct (decide (P y)); simpl; lia.
Qed.

(* ------------------------------------------------------------------------- *)
(** ** The mistake counter and the error marks *)
(* ------------------------------------------------------------------------- *)

Lemma handleEvent_mistakes_step (s : Session) (e : Event) :
  mistakes s ≤ mistakes (handleEvent s e) ∧
  mistakes (handleEvent s e)
    ≤ mistakes s + (if isNumberInput e then 1 else 0).
Proof.
  destruct (handleEvent_effect s e)
    as [[_ ->] | (r & c & v & _ & _ & _ & _ & [[-> _] | [-> ->]])]; lia.
Qed.

(** X8.  The mistake counter never goes down, and over any sequence of
    events it goes up by at most the number of number inputs in the
    sequence: erasing, selecting, arrow moves and mode switches never change
    it. *)
Theorem mistakes_monotone (s : Session) (es : list Event) :
  mistakes s ≤ mistakes (runEvents s es) ∧
  mistakes (runEvents s es)
    ≤ mistakes s + length (filter (fun e => isNumberInput e = true) es).
Proof.
  revert s. induction es as [| e es IH]; intros s; simpl; [lia |].
  destruct (IH (handleEvent s e)) as [Hlow Hhigh].
  destruct (handleEvent_mistakes_step s e) as [Hlow1 Hhigh1].
  rewrite filter_cons.
  destruct (isNumberInput e);
    [rewrite decide_True by done | rewrite decide_False by done];
    simpl in *; lia.
Qed.

Lemma countErrors_ext (s s' : Session) :
  initialBoard s' = initialBoard s → solution s' = solution s →
  board s' = board s → countErrors s' = countErrors s.
Proof.
  intros Hi Hs Hb. unfold countErrors, cellIsError, cellIsInitial.
  by rewrite Hi, Hs, Hb.
Qed.

Lemma handleEvent_errors_step (s : Session) (e : Event) :
  sessionInv s →
  countErrors (handleEvent s e) + mistakes s
    ≤ countErrors s + mistakes (handleEvent s e).
Proof.
  intros Hinv. destruct (handleEvent_fixed s e) as [Hi Hs].
  destruct (handleEvent_effect s e)
    as [[Hb Hm] | (r & c & v & _ & Hsel & Hedit & Hb & Hm)].
  { rewrite (countErrors_ext s _ Hi Hs Hb). lia. }
  pose proof (inv_selected s Hinv r c Hsel) as [Hr Hc].
  pose proof (inv_board s Hinv) as Hwf.
  assert (∀ r' c', (r', c') ≠ (r, c) →
            cellIsError (handleEvent s e) r' c' = cellIsError s r' c')
    as Hother.
  { intros r' c' Hne. unfold cellIsError, cellIsInitial.
    rewrite Hi, Hs, Hb. by rewrite cell_setCell_ne. }
  destruct Hm as [[-> Hv] | [-> _]].
  - assert (countErrors (handleEvent s e) ≤ countErrors s); [| lia].
    apply filter_length_le. intros [r' c'] _ Herr. simpl in *.
    destruct (decide ((r', c') = (r, c))) as [[= -> ->] | Hne].
    + exfalso. unfold cellIsError in Herr. rewrite Hs, Hb in Herr.
      rewrite cell_setCell_eq in Herr by done.
      destruct Hv as [-> | ->].
      * rewrite Nat.eqb_refl, andb_false_r in Herr. done.
      * rewrite Nat.eqb_refl, andb_false_r in Herr. done.
    + by rewrite <- Hother.
  - assert (countErrors (handleEvent s e) ≤ S (countErrors s)); [| lia].
    apply (filter_length_le_S _ _ _ (r, c)); [apply NoDup_allCells |].
    intros [r' c'] _ Hne Herr. simpl in *. by rewrite <- Hother.
Qed.

Section error_marks.
Context {G : Type} `{RandomSourceLaws G}.

Lemma countErrors_newSession (memoMode : bool) (sol puz : Board) :
  countErrors (newSession memoMode sol puz) ≤ 0.
Proof.
  unfold countErrors.
  etrans; [apply (filter_length_le (fun _ => False)) |].
  - intros [r c] _ Herr. simpl in Herr.
    unfold cellIsError, cellIsInitial in Herr. simpl in Herr.
    rewrite copyBoard_id in Herr.
    by destruct (cell puz r c =? BLANK).
  - induction allCells as [| x l IH]; [done |].
    rewrite filter_cons. by rewrite decide_False by tauto.
Qed.

Lemma reachable_errors (s : Session) :
  reachable (G := G) s → countErrors s ≤ mistakes s.
Proof.
  induction 1 as [fuel g g' s Hstart | fuel diff g g' s s' _ _ _ Hstart
                 | s e Hreach IH Hvalid].
  - unfold startNewGame in Hstart.
    destruct (generatePuzzle fuel "Easy" g) as [[[sol puz] g1] |]; [| done].
    simplify_eq. apply countErrors_newSession.
  - unfold startNewGame in Hstart.
    destruct (generatePuzzle fuel diff g) as [[[sol puz] g1] |]; [| done].
    simplify_eq. apply countErrors_newSession.
  - pose proof (handleEvent_errors_step s e (reachable_inv s Hreach)). lia.
Qed.

(** X9.  In every reachable state the number of cells marked as errors
    (editable, filled, different from the solution) is at most the mistake
    counter; given cells and blank cells are never marked; and when the game
    is complete no cell is marked. *)
Theorem errors_at_most_mistakes (s : Session) :
  reachable (G := G) s →
  countErrors s ≤ mistakes s ∧
  (∀ r c, inRange r c →
     cell (initialBoard s) r c ≠ BLANK ∨ cell (board s) r c = BLANK →
     cellIsError s r c = false) ∧
  (isComplete s = true → countErrors s = 0).
Proof.
  intros Hreach. pose proof (reachable_inv s Hreach) as Hinv.
  split; [by apply reachable_errors |]. split.
  - intros r c Hrc [Hgiven | Hblank]; unfold cellIsError, cellIsInitial.
    + apply Nat.eqb_neq in Hgiven. by rewrite Hgiven.
    + rewrite Hblank. simpl. by rewrite andb_false_r.
  - intros Hdone0. pose proof (proj1 (inv_complete s Hinv) Hdone0) as Hdone.
    assert (countErrors s ≤ 0); [| lia].
    unfold countErrors.
    etrans; [apply (filter_length_le (fun _ => False)) |].
    + intros [r c] Hin Herr. simpl in Herr.
      apply elem_of_allCells in Hin. unfold cellIsError in Herr.
      rewrite (Hdone r c Hin), Nat.eqb_refl, andb_false_r in Herr. done.
    + induction allCells as [| x l IH]; [done |].
      rewrite filter_cons. by rewrite decide_False by tauto.
Qed.
End error_marks.

Lemma errors_at_most_mistakes_witness :
  countErrors demoWrongDigit ≤ mistakes demoWrongDigit ∧
  mistakes demoWrongDigit = 1 ∧ cellIsError demoWrongDigit 0 0 = true ∧
  cellIsError demoWrongDigit 0 4 = false.
Proof.
  assert (reachable (G := DemoRng) demoWrongDigit) as Hreach
    by by apply demo_runEvents_reachable.
  destruct (errors_at_most_mistakes (G := DemoRng) demoWrongDigit Hreach)
    as (Hle & Hmarks & _).
  split; [exact Hle |]. split; [reflexivity |]. split; [reflexivity |].
  apply Hmarks; [split; unfold GRID_SIZE; lia |]. left. vm_compute. lia.
Defined.

(* ------------------------------------------------------------------------- *)
(** ** The completed game, selection, erasing *)
(* ------------------------------------------------------------------------- *)

Lemma handleEvent_complete (s : Session) (e : Event) :
  isComplete s = true →
  board (handleEvent s e) = board s ∧ memos (handleEvent s e) = memos s ∧
  mistakes (handleEvent s e) = mistakes s ∧
  isComplete (handleEvent s e) = true.
Proof.
  intros Hdone. destruct e as [r c | num | | | d]; simpl; try done.
  - by rewrite handleNumberInput_complete.
  - unfold handleErase. by rewrite Hdone.
  - unfold handleArrow. by rewrite Hdone.
Qed.

(** X10.  A completed game is frozen: number inputs, erasing and arrow keys
    do nothing at all, and no sequence of events changes the board, the
    memos, the mistake counter or the completion flag (clicks and the memo
    button still change the selection and the mode). *)
Theorem complete_is_frozen (s : Session) :
  isComplete s = true →
  (∀ num, handleNumberInput s num = s) ∧ handleErase s = s ∧
  (∀ d, handleArrow s d = s) ∧
  ∀ es, board (runEvents s es) = board s ∧
        memos (runEvents s es) = memos s ∧
        mistakes (runEvents s es) = mistakes s ∧
        isComplete (runEvents s es) = true.
Proof.
  intros Hdone. split; [intros; by apply handleNumberInput_complete |].
  split; [unfold handleErase; by rewrite Hdone |].
  split; [intros; unfold handleArrow; by rewrite Hdone |].
  intros es. revert s Hdone.
  induction es as [| e es IH]; intros s Hdone; [done |]. simpl.
  destruct (handleEvent_complete s e Hdone) as (Hb & Hm & Hk & Hc).
  destruct (IH _ Hc) as (-> & -> & -> & ->). done.
Qed.

Lemma complete_is_frozen_witness :
  isComplete demoSolved = true ∧
  board (runEvents demoSolved
           [ClickCell 0 0; NumberInput 7; EraseInput; MemoToggle;
            NumberInput 2]) = board demoSolved ∧
  memos (runEvents demoSolved
           [ClickCell 0 0; NumberInput 7; EraseInput; MemoToggle;
            NumberInput 2]) = memos demoSolved.
Proof.
  assert (isComplete demoSolved = true) as Hdone by (vm_compute; reflexivity).
  destruct (complete_is_frozen demoSolved Hdone) as (_ & _ & _ & Hall).
  destruct (Hall [ClickCell 0 0; NumberInput 7; EraseInput; MemoToggle;
                  NumberInput 2]) as (Hb & Hm & _).
  split; [exact Hdone |]. split; [exact Hb | exact Hm].
Defined.

(** X11.  In every reachable state the selection, when there is one, is a
    cell of the grid, so no handler ever indexes a board out of range; an
    arrow key keeps one coordinate and moves the other by at most one, in
    its own direction, staying put exactly at the edge. *)
Theorem selection_stays_in_grid {G : Type} `{RandomSourceLaws G}
    (s : Session) (r c : nat) :
  reachable (G := G) s → selectedCell s = Some (r, c) →
  inRange r c ∧
  ∀ d, isComplete s = false →
    ∃ r' c', selectedCell (handleArrow s d) = Some (r', c') ∧ inRange r' c' ∧
      ((r' = r ∧ c' - c ≤ 1 ∧ c - c' ≤ 1) ∨
       (c' = c ∧ r' - r ≤ 1 ∧ r - r' ≤ 1)) ∧
      match d with
      | ArrowUp => r' ≤ r ∧ (r' = r ↔ r = 0)
      | ArrowDown => r ≤ r' ∧ (r' = r ↔ r = 8)
      | ArrowLeft => c' ≤ c ∧ (c' = c ↔ c = 0)
      | ArrowRight => c ≤ c' ∧ (c' = c ↔ c = 8)
      end.
Proof.
  intros Hreach Hsel.
  destruct (inv_selected s (reachable_inv s Hreach) r c Hsel) as [Hr Hc].
  split; [done |]. intros d Hlive. unfold handleArrow.
  rewrite Hlive, Hsel. unfold GRID_SIZE, inRange in *.
  destruct d;
    [exists (Nat.max 0 (r - 1)), c | exists (Nat.min 8 (r + 1)), c
    | exists r, (Nat.max 0 (c - 1)) | exists r, (Nat.min 8 (c + 1))];
    (split; [reflexivity |]); unfold GRID_SIZE; lia.
Qed.

Lemma selection_stays_in_grid_witness :
  selectedCell demoAlmostSolved = Some (8, 7) ∧ inRange 8 7 ∧
  selectedCell (handleArrow demoAlmostSolved ArrowDown) = Some (8, 7).
Proof.
  destruct (selection_stays_in_grid (G := DemoRng) demoAlmostSolved 8 7
              demoAlmostSolved_reachable eq_refl) as [Hrange _].
  split; [reflexivity |]. split; [exact Hrange | reflexivity].
Defined.

(** X12.  Erasing undoes a placement: with memo mode off, after a digit is
    entered into a blank editable cell (and has not completed the board),
    erasing restores the board to what it was before the digit; the mistake
    the digit may have counted stays counted.  If the digit completed the
    board, erasing does nothing. *)
Theorem place_then_erase_restores (s : Session) (r c num : nat) :
  wfBoard (board s) → inRange r c →
  isComplete s = false → selectedCell s = Some (r, c) →
  cell (initialBoard s) r c = BLANK → cell (board s) r c = BLANK →
  isMemoMode s = false → 1 ≤ num ≤ 9 →
  let s1 := handleNumberInput s num in
  (isComplete s1 = false →
     board (handleErase s1) = board s ∧
     mistakes (handleErase s1) = mistakes s1 ∧
     memos (handleErase s1) = memos s1) ∧
  (isComplete s1 = true → handleErase s1 = s1).
Proof.
  intros Hwf Hrc Hlive Hsel Hedit Hblank Hmode Hnum s1.
  assert (cell (board s) r c ≠ num) as Hother
    by (rewrite Hblank; unfold BLANK; lia).
  pose proof (handleNumberInput_place s r c Hlive Hsel Hedit num Hmode Hother)
    as Es1. fold s1 in Es1.
  split; intros Hdone1; unfold handleErase; rewrite Hdone1; [| done].
  rewrite Es1. simpl. rewrite Hedit. simpl. rewrite copyBoard_id.
  by rewrite setCell_restore.
Qed.

Lemma place_then_erase_restores_witness :
  let s1 := handleNumberInput demoMemoThenNormal 9 in
  cell (board s1) 0 0 = 9 ∧ mistakes s1 = 1 ∧
  board (handleErase s1) = board demoMemoThenNormal ∧
  mistakes (handleErase s1) = 1.
Proof.
  intros s1.
  assert (wfBoard (board demoMemoThenNormal)) as Hwf
    by apply (inv_board _ (reachable_inv _ demoMemoThenNormal_reachable)).
  assert (inRange 0 0) as Hrange by (split; unfold GRID_SIZE; lia).
  assert (1 ≤ 9 ≤ 9) as Hnum by lia.
  destruct (place_then_erase_restores demoMemoThenNormal 0 0 9 Hwf Hrange
              eq_refl eq_refl eq_refl eq_refl eq_refl Hnum) as [Hundo _].
  destruct (Hundo eq_refl) as (Hb & Hm & _). fold s1 in Hb, Hm.
  split; [reflexivity |]. split; [reflexivity |].
  split; [exact Hb |]. rewrite Hm. reflexivity.
Defined.

Lemma handleErase_cases (s : Session) :
  handleErase s = s ∨
  ∃ r c, isComplete s = false ∧ selectedCell s = Some (r, c) ∧
    cell (initialBoard s) r c = BLANK ∧
    handleErase s =
      mkSession (initialBoard s) (setCell (board s) r c BLANK) (solution s)
        (Some (r, c)) (memos s) (isMemoMode s) (mistakes s) false.
Proof.
  unfold handleErase.
  destruct (isComplete s) eqn:Hc; [by left |].
  destruct (selectedCell s) as [[r c] |] eqn:Hsel; [| by left].
  destruct (Nat.eqb_spec (cell (initialBoard s) r c) BLANK) as [Hinit | ?];
    simpl; [| by left].
  right. exists r, c. by rewrite copyBoard_id.
Qed.

(** X13.  Erasing twice is the same as erasing once, in every reachable
    state; and erasing never touches the memos, the mistake counter, the
    completion flag or any cell other than the selected one. *)
Theorem handleErase_idempotent {G : Type} `{RandomSourceLaws G} (s : Session) :
  reachable (G := G) s →
  handleErase (handleErase s) = handleErase s ∧
  memos (handleErase s) = memos s ∧
  mistakes (handleErase s) = mistakes s ∧
  isComplete (handleErase s) = isComplete s ∧
  ∀ r c, selectedCell s ≠ Some (r, c) →
         cell (board (handleErase s)) r c = cell (board s) r c.
Proof.
  intros Hreach. pose proof (reachable_inv s Hreach) as Hinv.
  destruct (handleErase_cases s)
    as [Hsame | (r & c & Hlive & Hsel & Hedit & Hwrite)].
  { by rewrite !Hsame. }
  destruct (inv_selected s Hinv r c Hsel) as [Hr Hc].
  rewrite Hwrite. split; [| split; [done | split; [done | split; [done |]]]].
  - unfold handleErase. simpl. rewrite Hedit. simpl.
    rewrite copyBoard_id.
    by rewrite setCell_setCell by (done || apply Hinv).
  - simpl. intros r' c' Hne. rewrite cell_setCell_ne; [done | congruence].
Qed.

Lemma handleErase_idempotent_witness :
  handleErase (handleErase demoWrongDigit) = handleErase demoWrongDigit ∧
  cell (board (handleErase demoWrongDigit)) 0 0 = BLANK ∧
  memos (handleErase demoWrongDigit) = memos demoWrongDigit.
Proof.
  assert (reachable (G := DemoRng) demoWrongDigit) as Hreach
    by by apply demo_runEvents_reachable.
  destruct (handleErase_idempotent (G := DemoRng) demoWrongDigit Hreach)
    as (Hidem & Hmemos & _).
  split; [exact Hidem |]. split; [reflexivity | exact Hmemos].
Defined.

(** X14.  [checkCompletion] reaches [setIsComplete(true)] exactly when the
    two 9x9 boards are equal; one differing cell is enough to make it
    return early. *)
Theorem checkCompletion_iff_equal (b sol : Board) :
  wfBoard b → wfBoard sol →
  (checkCompletion b sol = true ↔ b = sol) ∧
  (∀ r c, inRange r c → cell b r c ≠ cell sol r c →
          checkCompletion b sol = false).
Proof.
  intros Hwf Hwfs. split.
  - rewrite checkCompletion_true_iff. split.
    + intros Hall. apply board_ext; [done | done |].
      intros r c Hr Hc. by apply Hall.
    + by intros ->.
  - intros r c Hrc Hdiff.
    destruct (checkCompletion b sol) eqn:E; [| done].
    rewrite checkCompletion_true_iff in E. by destruct (Hdiff (E r c Hrc)).
Qed.

Lemma checkCompletion_iff_equal_witness :
  checkCompletion demoSolution demoSolution = true ∧
  checkCompletion demoPuzzle demoSolution = false.
Proof.
  pose proof (proj1 demoSolution_valid) as Hwfs.
  pose proof (proj1 demoPuzzle_partialValid) as Hwfp.
  split.
  - by apply (proj1 (checkCompletion_iff_equal _ _ Hwfs Hwfs)).
  - apply (proj2 (checkCompletion_iff_equal _ _ Hwfp Hwfs) 0 0);
      [split; unfold GRID_SIZE; lia | vm_compute; lia].
Defined.

(* ------------------------------------------------------------------------- *)
(** ** [isNumberComplete] on a finished board *)
(* ------------------------------------------------------------------------- *)

Lemma filter_fmap_length {A B : Type} (f : A → B) (P : B → Prop)
    `{!∀ y, Decision (P y)} (l : list A) :
  length (filter P (f <$> l)) = length (filter (fun x => P (f x)) l).
Proof.
  induction l as [| x l IH]; [done |].
  rewrite fmap_cons, !filter_cons. destruct (decide (P (f x))); simpl; lia.
Qed.

Lemma digit_once (d : nat) :
  1 ≤ d ≤ 9 → length (filter (fun x => x = d) digits) = 1.
Proof.
  intros Hd. assert (d ∈ digits) as Hin
    by (apply list_elem_of_In, in_seq; unfold GRID_SIZE; lia).
  unfold digits, GRID_SIZE in *. simpl in Hin.
  repeat (apply elem_of_cons in Hin as [-> | Hin]; [reflexivity |]).
  by apply elem_of_nil in Hin.
Qed.

Lemma row_digit_count (b : Board) (r d : nat) :
  validSolution b → r < GRID_SIZE → 1 ≤ d ≤ 9 →
  length (filter (fun c => cell b r c = d) (seq 0 GRID_SIZE)) = 1.
Proof.
  intros [_ Hunits] Hr Hd. destruct (Hunits r Hr) as (Hrow & _ & _).
  assert (length (filter (fun c => cell b r c = d) (seq 0 GRID_SIZE))
          = length (filter (fun x => x = d) (rowCells b r))) as ->.
  { unfold rowCells. symmetry.
    exact (filter_fmap_length (fun c => cell b r c) (fun x => x = d)
             (seq 0 GRID_SIZE)). }
  rewrite Hrow. by apply digit_once.
Qed.

Lemma cells_count (P : nat → nat → Prop) (Hdec : ∀ r c, Decision (P r c))
    (rows cols : list nat) :
  length (filter (fun rc => P rc.1 rc.2)
            (r ← rows; (fun c => (r, c)) <$> cols)) =
  sum_list_with (fun r => length (filter (fun c => P r c) cols)) rows.
Proof.
  induction rows as [| r rows IH]; [done |].
  rewrite bind_cons, filter_app, length_app, IH. simpl. f_equal.
  exact (filter_fmap_length (fun c => (r, c)) (fun rc => P rc.1 rc.2) cols).
Qed.

Lemma allCells_count (P : nat → nat → Prop) (Hdec : ∀ r c, Decision (P r c)) :
  length (filter (fun rc => P rc.1 rc.2) allCells) =
  sum_list_with
    (fun r => length (filter (fun c => P r c) (seq 0 GRID_SIZE)))
    (seq 0 GRID_SIZE).
Proof. apply cells_count. Qed.

Lemma sum_list_with_ones {A : Type} (f : A → nat) (l : list A) :
  (∀ x, x ∈ l → f x = 1) → sum_list_with f l = length l.
Proof.
  induction l as [| x l IH]; intros Hone; [done |]. simpl.
  rewrite (Hone x) by left. f_equal. apply IH. intros y Hy. apply Hone.
  by right.
Qed.

Lemma digit_count_valid (b : Board) (d : nat) :
  validSolution b → 1 ≤ d ≤ 9 →
  length (filter (fun rc => cell b rc.1 rc.2 = d) allCells) = 9.
Proof.
  intros Hvalid Hd.
  etrans; [exact (allCells_count (fun r c => cell b r c = d)
                    (fun r c => decide (cell b r c = d))) |].
  rewrite sum_list_with_ones; [done |].
  intros r Hr. apply list_elem_of_In, in_seq in Hr.
  apply row_digit_count; (done || lia).
Qed.

(** X15.  When the game is complete, [isNumberComplete] holds for every
    digit 1..9 (each occurs exactly nine times in the board), so every button
    of the number pad is disabled. *)
Theorem isNumberComplete_when_complete {G : Type} `{RandomSourceLaws G}
    (s : Session) (d : nat) :
  reachable (G := G) s → isComplete s = true → 1 ≤ d ≤ 9 →
  isNumberComplete s d = true.
Proof.
  intros Hreach Hdone Hd. pose proof (reachable_inv s Hreach) as Hinv.
  assert (board s = solution s) as Hboard.
  { apply board_ext; [apply Hinv | apply (proj1 (inv_solution s Hinv)) |].
    intros r c Hr Hc. by apply (proj1 (inv_complete s Hinv) Hdone). }
  unfold isNumberComplete. rewrite Hboard.
  rewrite digit_count_valid; [done | apply Hinv | done].
Qed.

Lemma isNumberComplete_when_complete_witness :
  isNumberComplete demoSolved 7 = true ∧
  isNumberComplete demoAlmostSolved 3 = false.
Proof.
  split; [| reflexivity].
  apply (isNumberComplete_when_complete (G := DemoRng));
    [apply demoSolved_reachable | reflexivity | lia].
Defined.

(* ------------------------------------------------------------------------- *)
(** ** Every generated game can be won *)
(* ------------------------------------------------------------------------- *)

Lemma runEvents_app (s : Session) (es1 es2 : list Event) :
  runEvents s (es1 ++ es2) = runEvents (runEvents s es1) es2.
Proof. unfold runEvents. apply foldl_app. Qed.

Lemma fill_one (s : Session) (r c : nat) :
  sessionInv s → isMemoMode s = false → inRange r c →
  cell (initialBoard s) r c = BLANK → cell (board s) r c = BLANK →
  runEvents s [ClickCell r c; NumberInput (cell (solution s) r c)] =
    mkSession (initialBoard s)
      (setCell (board s) r c (cell (solution s) r c)) (solution s)
      (Some (r, c)) (delete (memoKey r c) (memos s)) false (mistakes s)
      (checkCompletion (setCell (board s) r c (cell (solution s) r c))
         (solution s)).
Proof.
  intros Hinv Hmode Hrc Hedit Hblank.
  pose proof (validSolution_row_digit _ r c (inv_solution s Hinv) Hrc) as Hdig.
  assert (isComplete s = false) as Hlive.
  { destruct (isComplete s) eqn:E; [| done].
    pose proof (proj1 (inv_complete s Hinv) E r c Hrc) as E'.
    rewrite Hblank in E'. unfold BLANK in E'. lia. }
  change (runEvents s [ClickCell r c; NumberInput (cell (solution s) r c)])
    with (handleNumberInput (setSelectedCell s (r, c))
            (cell (solution s) r c)).
  rewrite (handleNumberInput_place (setSelectedCell s (r, c)) r c
             Hlive eq_refl Hedit).
  - simpl. by rewrite !decide_True.
  - done.
  - simpl. rewrite Hblank. unfold BLANK. lia.
Qed.

Lemma fill_cells (cs : list (nat * nat)) :
  ∀ s, sessionInv s → isMemoMode s = false → NoDup cs →
    (∀ r c, (r, c) ∈ cs →
       inRange r c ∧ cell (initialBoard s) r c = BLANK ∧
       cell (board s) r c = BLANK) →
    (∀ r c, inRange r c → (r, c) ∉ cs →
       cell (board s) r c = cell (solution s) r c) →
    mistakes (runEvents s (fillEvents (solution s) cs)) = mistakes s ∧
    sessionInv (runEvents s (fillEvents (solution s) cs)) ∧
    solution (runEvents s (fillEvents (solution s) cs)) = solution s ∧
    ∀ r c, inRange r c →
      cell (board (runEvents s (fillEvents (solution s) cs))) r c
        = cell (solution s) r c.
Proof.
  induction cs as [| [r c] cs IH]; intros s Hinv Hmode Hnd Hcs Hrest.
  { simpl. repeat (split; [done |]). intros r c Hrc. apply Hrest; [done |].
    apply not_elem_of_nil. }
  apply NoDup_cons in Hnd as [Hfresh Hnd].
  destruct (Hcs r c) as (Hrc & Hedit & Hblank); [left |].
  assert (fillEvents (solution s) ((r, c) :: cs) =
            [ClickCell r c; NumberInput (cell (solution s) r c)]
              ++ fillEvents (solution s) cs) as -> by reflexivity.
  rewrite runEvents_app, (fill_one s r c Hinv Hmode Hrc Hedit Hblank).
  assert (sessionInv
            (runEvents s [ClickCell r c; NumberInput (cell (solution s) r c)]))
    as Hinv2.
  { apply runEvents_inv; [done |]. constructor; [apply Hrc |].
    constructor; [| constructor]. simpl.
    by apply validSolution_row_digit; [apply Hinv |]. }
  rewrite (fill_one s r c Hinv Hmode Hrc Hedit Hblank) in Hinv2.
  destruct Hrc as [Hr Hc].
  match type of Hinv2 with sessionInv ?t => set (s2 := t) in * end.
  destruct (IH s2 Hinv2 eq_refl Hnd) as (Hm & Hinv' & Hsol & Hcells).
  - intros r' c' Hin. destruct (Hcs r' c') as (Hrc' & Hedit' & Hblank');
      [by right |].
    split; [done |]. split; [done |]. simpl.
    rewrite cell_setCell_ne; [done |]. intros [= -> ->]. done.
  - intros r' c' Hrc' Hnotin. simpl.
    rewrite cell_setCell by (done || apply Hinv).
    case_decide as E; [by simplify_eq |].
    apply Hrest; [done |]. intros Hin.
    apply elem_of_cons in Hin as [? | ?]; done.
  - done.
Qed.

Lemma NoDup_blankCells (b : Board) : NoDup (blankCells b).
Proof. apply NoDup_filter, NoDup_allCells. Qed.

Lemma elem_of_blankCells (b : Board) (r c : nat) :
  (r, c) ∈ blankCells b ↔ inRange r c ∧ cell b r c = BLANK.
Proof.
  unfold blankCells. rewrite list_elem_of_filter, elem_of_allCells.
  unfold inRange. cbn [fst snd]. tauto.
Qed.

Lemma fillEvents_valid (sol : Board) (cs : list (nat * nat)) :
  validSolution sol → (∀ r c, (r, c) ∈ cs → inRange r c) →
  Forall validEvent (fillEvents sol cs).
Proof.
  intros Hvalid. induction cs as [| [r c] cs IH]; intros Hcs; [constructor |].
  unfold fillEvents. rewrite bind_cons. fold (fillEvents sol cs).
  assert (inRange r c) as Hrc by (apply Hcs; left).
  simpl. constructor; [done |]. constructor.
  - simpl. by apply validSolution_row_digit.
  - apply IH. intros r' c' Hin. apply Hcs. by right.
Qed.

(** X16.  Every generated game can be won without a mistake: starting from
    the fresh session (memo mode off), selecting each blank cell in turn and
    entering the solution's digit there ends with the game complete, the
    board equal to the solution and the mistake counter still 0. *)
Theorem generated_game_winnable {G : Type} `{RandomSourceLaws G}
    (fuel : nat) (difficulty : string) (g g' : G) (sol puz : Board) :
  generatePuzzle fuel difficulty g = Some (sol, puz, g') →
  let es := fillEvents sol (blankCells puz) in
  let s := runEvents (newSession false sol puz) es in
  Forall validEvent es ∧
  isComplete s = true ∧ board s = sol ∧ mistakes s = 0.
Proof.
  intros Hgen es s.
  pose proof (newSession_inv _ _ _ _ _ _ false Hgen) as Hinv0.
  apply generatePuzzle_spec in Hgen as (Hvalid & Hwf & Hcells & _).
  split.
  { apply fillEvents_valid; [done |]. intros r c Hin.
    by apply elem_of_blankCells in Hin as [? _]. }
  destruct (fill_cells (blankCells puz) (newSession false sol puz) Hinv0
              eq_refl (NoDup_blankCells puz)) as (Hm & Hinv & Hsol & Hboard).
  - intros r c Hin. apply elem_of_blankCells in Hin as [Hrc Hblank].
    simpl. by rewrite copyBoard_id.
  - intros r c Hrc Hnotin. simpl. rewrite copyBoard_id. apply Hcells; [done |].
    intros Hblank. apply Hnotin. by apply elem_of_blankCells.
  - change (solution (newSession false sol puz)) with sol in *.
    change (mistakes (newSession false sol puz)) with 0 in Hm.
    fold es in Hm, Hinv, Hsol, Hboard. fold s in Hm, Hinv, Hsol, Hboard.
    split; [| split; [| done]].
    + apply (inv_complete s Hinv). intros r c Hrc. rewrite Hsol.
      by apply Hboard.
    + apply board_ext; [apply Hinv | apply Hvalid |].
      intros r c Hr Hc. by apply Hboard.
Qed.

Lemma generated_game_winnable_witness :
  let s :=
    runEvents demoSession (fillEvents demoSolution (blankCells demoPuzzle)) in
  length (blankCells demoPuzzle) = 30 ∧
  isComplete s = true ∧ board s = demoSolution ∧ mistakes s = 0.
Proof.
  intros s.
  destruct (generated_game_winnable (G := DemoRng) 200 "Easy"%string demoStart
              demoEnd demoSolution demoPuzzle demo_generatePuzzle)
    as (_ & Hdone & Hboard & Hm).
  split; [reflexivity |]. split; [exact Hdone |]. split; [exact Hboard |].
  exact Hm.
Defined.

(* ------------------------------------------------------------------------- *)
(** ** Memos: toggling twice, and where entries can sit *)
(* ------------------------------------------------------------------------- *)

Lemma sorted_lt_ext (l1 l2 : list nat) :
  StronglySorted lt l1 → StronglySorted lt l2 →
  (∀ x, x ∈ l1 ↔ x ∈ l2) → l1 = l2.
Proof.
  intros Hs1. revert l2.
  induction Hs1 as [| x l1 Hs1 IH Hall1]; intros l2 Hs2 Hsame.
  - destruct l2 as [| y l2]; [done |].
    assert (y ∈ []) as Hy by (apply Hsame; left). by apply elem_of_nil in Hy.
  - destruct Hs2 as [| y l2 Hs2 Hall2].
    { assert (x ∈ []) as Hx by (apply Hsame; left).
      by apply elem_of_nil in Hx. }
    rewrite Forall_forall in Hall1. rewrite Forall_forall in Hall2.
    assert (x = y) as ->.
    { assert (x ∈ y :: l2) as Hx by (apply Hsame; left).
      assert (y ∈ x :: l1) as Hy by (apply Hsame; left).
      apply elem_of_cons in Hx as [-> | Hx]; [done |].
      apply elem_of_cons in Hy as [-> | Hy]; [done |].
      specialize (Hall1 y Hy). specialize (Hall2 x Hx). lia. }
    f_equal. apply IH; [done |]. intros z. split; intros Hz.
    + assert (z ∈ y :: l2) as Hz' by (apply Hsame; by right).
      apply elem_of_cons in Hz' as [-> | ?]; [| done].
      specialize (Hall1 y Hz). lia.
    + assert (z ∈ y :: l1) as Hz' by (apply Hsame; by right).
      apply elem_of_cons in Hz' as [-> | ?]; [| done].
      specialize (Hall2 y Hz). lia.
Qed.

(** The array a memo-mode input writes, from the array it found. *)
Lemma memo_toggle_twice_list (l : list nat) (num : nat) :
  memoListOk l → 1 ≤ num ≤ 9 →
  let toggle := fun l0 =>
    if includes l0 num then filter (fun n => n ≠ num) l0
    else jsSort (l0 ++ [num]) in
  toggle (toggle l) = l.
Proof.
  intros Hl Hnum toggle. unfold toggle.
  destruct (includes l num) eqn:Einc.
  - apply includes_elem in Einc.
    pose proof (memoListOk_filter (fun n => n ≠ num) l Hl) as Hl1.
    assert (num ∉ filter (fun n => n ≠ num) l) as Hout.
    { intros Hin. apply list_elem_of_filter in Hin as [Hne _]. done. }
    destruct (includes (filter _ l) num) eqn:E1.
    { apply includes_elem in E1. done. }
    destruct (memoListOk_add _ num Hl1 Hnum Hout) as [[Hs _] Hp].
    apply sorted_lt_ext; [done | apply Hl |].
    intros x. rewrite Hp, elem_of_app, list_elem_of_filter,
      list_elem_of_singleton.
    split; [intros [[_ ?] | ->]; done |].
    intros Hx. destruct (decide (x = num)); auto.
  - assert (num ∉ l) as Hout
      by (intros Hin; apply includes_elem in Hin; congruence).
    destruct (memoListOk_add l num Hl Hnum Hout) as [[Hs _] Hp].
    assert (num ∈ jsSort (l ++ [num])) as Hin.
    { rewrite Hp, elem_of_app, list_elem_of_singleton. by right. }
    apply includes_elem in Hin. rewrite Hin.
    apply sorted_lt_ext; [by apply sorted_filter | apply Hl |].
    intros x. rewrite list_elem_of_filter, Hp, elem_of_app,
      list_elem_of_singleton.
    split; [intros [? [? | ?]]; done |].
    intros Hx. split; [by intros -> | by left].
Qed.

(** X17.  In memo mode, entering the same digit twice into the selected
    editable cell gives back the memo array the cell had (adding and then
    removing it, or removing and then adding it in its sorted place).  The
    whole map is as before when the cell had an entry; when it had none, it
    is left with an empty one.  The board and the mistake counter are not
    touched. *)
Theorem memo_toggle_twice {G : Type} `{RandomSourceLaws G}
    (s : Session) (r c num : nat) :
  reachable (G := G) s →
  isComplete s = false → selectedCell s = Some (r, c) →
  cell (initialBoard s) r c = BLANK → isMemoMode s = true → 1 ≤ num ≤ 9 →
  let s2 := handleNumberInput (handleNumberInput s num) num in
  memos s2 =
    <[memoKey r c := default [] (memos s !! memoKey r c)]> (memos s) ∧
  (is_Some (memos s !! memoKey r c) → memos s2 = memos s) ∧
  board s2 = board s ∧ mistakes s2 = mistakes s.
Proof.
  intros Hreach Hlive Hsel Hedit Hmode Hnum s2.
  pose proof (reachable_inv s Hreach) as Hinv.
  pose proof (handleNumberInput_memo s r c Hlive Hsel Hedit num Hmode) as E1.
  set (s1 := handleNumberInput s num) in *.
  assert (isComplete s1 = false ∧ selectedCell s1 = Some (r, c) ∧
          cell (initialBoard s1) r c = BLANK ∧ isMemoMode s1 = true)
    as (Hlive1 & Hsel1 & Hedit1 & Hmode1) by by rewrite E1.
  pose proof (handleNumberInput_memo s1 r c Hlive1 Hsel1 Hedit1 num Hmode1)
    as E2.
  fold s2 in E2.
  assert (memoListOk (default [] (memos s !! memoKey r c))) as Hl.
  { destruct (memos s !! memoKey r c) as [l |] eqn:E; simpl.
    - apply (inv_memos s Hinv _ _ E).
    - apply memoListOk_nil. }
  assert (memos s2 =
            <[memoKey r c := default [] (memos s !! memoKey r c)]> (memos s))
    as Hmemos.
  { rewrite E2. simpl. rewrite E1. simpl.
    rewrite lookup_insert_eq, insert_insert_eq. simpl. f_equal.
    by apply (memo_toggle_twice_list _ num Hl Hnum). }
  split; [done |]. split.
  - intros [l El]. rewrite Hmemos, El. simpl. by apply insert_id.
  - rewrite E2. simpl. by rewrite E1.
Qed.

Lemma memo_toggle_twice_witness :
  memos demoThreeMemos !! memoKey 0 0 = Some [2; 5; 7] ∧
  memos (handleNumberInput demoThreeMemos 5) !! memoKey 0 0 = Some [2; 7] ∧
  memos (handleNumberInput (handleNumberInput demoThreeMemos 5) 5)
    = memos demoThreeMemos.
Proof.
  assert (1 ≤ 5 ≤ 9) as Hnum by lia.
  destruct (memo_toggle_twice (G := DemoRng) demoThreeMemos 0 0 5
              demoThreeMemos_reachable eq_refl eq_refl eq_refl eq_refl Hnum)
    as (_ & Hsame & _).
  split; [vm_compute; reflexivity |]. split; [vm_compute; reflexivity |].
  apply Hsame. exists [2; 5; 7]. vm_compute. reflexivity.
Defined.

Lemma memoKey_inj_grid :
  Forall (fun x => Forall (fun y => memoKey x.1 x.2 = memoKey y.1 y.2 → x = y)
                     allCells) allCells.
Proof. apply (bool_decide_unpack _). vm_compute. done. Qed.

Lemma memoKey_inj (r c r' c' : nat) :
  inRange r c → inRange r' c' → memoKey r c = memoKey r' c' →
  (r, c) = (r', c').
Proof.
  intros Hrc Hrc' Heq.
  pose proof (Forall_allCells _ memoKey_inj_grid r c Hrc) as Hrow.
  by apply (Forall_allCells _ Hrow r' c' Hrc').
Qed.

Lemma handleEvent_memos (s : Session) (e : Event) :
  memos (handleEvent s e) = memos s ∨
  (∃ r c l, selectedCell s = Some (r, c) ∧
            cell (initialBoard s) r c = BLANK ∧
            memos (handleEvent s e) = <[memoKey r c := l]> (memos s)) ∨
  (∃ key, memos (handleEvent s e) = delete key (memos s)).
Proof.
  destruct e as [r0 c0 | num | | | d]; simpl; try by left.
  - unfold handleNumberInput.
    destruct (isComplete s); [by left |].
    destruct (selectedCell s) as [[r c] |] eqn:Hsel; [| by left].
    destruct (Nat.eqb_spec (cell (initialBoard s) r c) BLANK) as [Hinit | ?];
      simpl; [| by left].
    destruct (isMemoMode s).
    + right; left. by eexists r, c, _.
    + repeat case_match; simpl; try by left. right; right. by eexists.
  - unfold handleErase. left. by repeat case_match.
  - unfold handleArrow. left. by repeat case_match.
Qed.

Lemma handleEvent_memoKeysOk (s : Session) (e : Event) :
  sessionInv s → memoKeysOk s → memoKeysOk (handleEvent s e).
Proof.
  intros Hinv Hkeys key l Hentry.
  destruct (handleEvent_fixed s e) as [Hi _]. rewrite Hi.
  destruct (handleEvent_memos s e)
    as [Hm | [(r & c & l0 & Hsel & Hedit & Hm) | [key0 Hm]]];
    rewrite Hm in Hentry.
  - by apply (Hkeys key l).
  - destruct (decide (key = memoKey r c)) as [-> | Hne].
    + exists r, c. split; [by apply (inv_selected s Hinv) | done].
    + rewrite lookup_insert_ne in Hentry by done. by apply (Hkeys key l).
  - apply lookup_delete_Some in Hentry as [_ Hentry].
    by apply (Hkeys key l).
Qed.

Section memo_keys.
Context {G : Type} `{RandomSourceLaws G}.

Lemma reachable_memoKeysOk (s : Session) :
  reachable (G := G) s → memoKeysOk s.
Proof.
  induction 1 as [fuel g g' s Hstart | fuel diff g g' s s' _ _ _ Hstart
                 | s e Hreach IH Hvalid].
  - unfold startNewGame in Hstart.
    destruct (generatePuzzle fuel "Easy" g) as [[[sol puz] g1] |]; [| done].
    simplify_eq. intros key l Hentry. simpl in Hentry.
    by rewrite lookup_empty in Hentry.
  - unfold startNewGame in Hstart.
    destruct (generatePuzzle fuel diff g) as [[[sol puz] g1] |]; [| done].
    simplify_eq. intros key l Hentry. simpl in Hentry.
    by rewrite lookup_empty in Hentry.
  - apply handleEvent_memoKeysOk; [by apply reachable_inv | done].
Qed.

(** X18.  Memos are only ever stored for editable cells: in every reachable
    state a given cell has no entry in the memo map, and every entry of the
    map sits under the key of an editable cell of the grid (distinct cells
    have distinct keys, so there are at most 81 entries). *)
Theorem memos_only_on_editable_cells (s : Session) :
  reachable (G := G) s →
  (∀ r c, inRange r c → cell (initialBoard s) r c ≠ BLANK →
          memos s !! memoKey r c = None) ∧
  (∀ key l, memos s !! key = Some l →
     ∃ r c, inRange r c ∧ key = memoKey r c ∧
            cell (initialBoard s) r c = BLANK) ∧
  (∀ r c r' c', inRange r c → inRange r' c' →
     memoKey r c = memoKey r' c' → (r, c) = (r', c')).
Proof.
  intros Hreach. pose proof (reachable_memoKeysOk s Hreach) as Hkeys.
  split; [| split; [done |]].
  - intros r c Hrc Hgiven.
    destruct (memos s !! memoKey r c) as [l |] eqn:E; [| done].
    destruct (Hkeys _ _ E) as (r' & c' & Hrc' & Hkey & Hedit).
    apply memoKey_inj in Hkey; [| done | done]. by simplify_eq.
  - intros r c r' c'. apply memoKey_inj.
Qed.
End memo_keys.

Lemma memos_only_on_editable_cells_witness :
  cell (initialBoard demoThreeMemos) 0 4 = 8 ∧
  memos demoThreeMemos !! memoKey 0 4 = None ∧
  memos (runEvents demoThreeMemos [ClickCell 0 4; NumberInput 3])
    !! memoKey 0 4 = None.
Proof.
  assert (inRange 0 4) as Hrange by (split; unfold GRID_SIZE; lia).
  destruct (memos_only_on_editable_cells (G := DemoRng) demoThreeMemos
              demoThreeMemos_reachable) as (Hgiven & _).
  assert (reachable (G := DemoRng)
            (runEvents demoThreeMemos [ClickCell 0 4; NumberInput 3]))
    as Hreach2.
  { apply reachable_runEvents; [apply demoThreeMemos_reachable |].
    apply (bool_decide_unpack _). vm_compute. exact I. }
  destruct (memos_only_on_editable_cells (G := DemoRng) _ Hreach2)
    as (Hgiven2 & _).
  split; [reflexivity |]. split.
  - apply Hgiven; [done | vm_compute; lia].
  - apply Hgiven2; [done | vm_compute; lia].
Defined.

(* ------------------------------------------------------------------------- *)
(** ** Keys *)
(* ------------------------------------------------------------------------- *)

Lemma digit_key_char (a : Ascii.ascii) :
  isDigitKey (String a EmptyString) = true →
  ∃ d, 1 ≤ d ≤ 9 ∧ String a EmptyString = pretty d ∧
       parseInt (String a EmptyString) = Some d.
Proof.
  destruct a as [[] [] [] [] [] [] [] []]; vm_compute; intros E;
    try discriminate;
    first [exists 1; split; [lia | split; vm_compute; reflexivity]
          | exists 2; split; [lia | split; vm_compute; reflexivity]
          | exists 3; split; [lia | split; vm_compute; reflexivity]
          | exists 4; split; [lia | split; vm_compute; reflexivity]
          | exists 5; split; [lia | split; vm_compute; reflexivity]
          | exists 6; split; [lia | split; vm_compute; reflexivity]
          | exists 7; split; [lia | split; vm_compute; reflexivity]
          | exists 8; split; [lia | split; vm_compute; reflexivity]
          | exists 9; split; [lia | split; vm_compute; reflexivity]].
Qed.

Lemma digit_keys_table :
  Forall (fun d => isDigitKey (pretty d) = true ∧ parseInt (pretty d) = Some d)
    digits.
Proof. apply (bool_decide_unpack _). vm_compute. done. Qed.

Lemma named_keys_not_digits :
  Forall (fun key => isDigitKey key = false) namedKeys.
Proof. apply (bool_decide_unpack _). vm_compute. done. Qed.

Lemma named_key_eqb (key name : string) :
  key ∉ namedKeys → name ∈ namedKeys → String.eqb key name = false.
Proof.
  intros Hnot Hin. destruct (String.eqb_spec key name) as [-> | _]; done.
Qed.

Lemma handleKeyDown_other (s : Session) (key : string) :
  isDigitKey key = false → key ∉ namedKeys → handleKeyDown s key = s.
Proof.
  intros Hdigit Hnot. unfold handleKeyDown. rewrite Hdigit.
  rewrite !(named_key_eqb key _ Hnot)
    by (apply (bool_decide_unpack _); vm_compute; done).
  by destruct (isComplete s).
Qed.

(** X19.  What a key press does.  In a completed game, nothing.  In a live
    game the keys '1'..'9', the only one-character keys to pass the digit
    test, enter that digit; 'Backspace' and 'Delete' erase; each of the four
    arrow key names moves the selection in its direction; 'm' and 'M' switch
    the memo mode; and every other key that fails the digit test does
    nothing.  So a one-character key, or a key failing the digit test,
    never does more than one valid event does.  The digit test and the
    eight key names exclude one another and the names are pairwise
    distinct, so no key triggers two actions. *)
Theorem handleKeyDown_dispatch (s : Session) (key : string) :
  (isComplete s = true → handleKeyDown s key = s) ∧
  (isComplete s = false →
     (∀ num, 1 ≤ num ≤ 9 → key = pretty num →
        handleKeyDown s key = handleNumberInput s num) ∧
     (String.length key = 1 → isDigitKey key = true →
        ∃ num, 1 ≤ num ≤ 9 ∧ key = pretty num) ∧
     (key = "Backspace"%string ∨ key = "Delete"%string →
        handleKeyDown s key = handleErase s) ∧
     (key = "ArrowUp"%string → handleKeyDown s key = handleArrow s ArrowUp) ∧
     (key = "ArrowDown"%string →
        handleKeyDown s key = handleArrow s ArrowDown) ∧
     (key = "ArrowLeft"%string →
        handleKeyDown s key = handleArrow s ArrowLeft) ∧
     (key = "ArrowRight"%string →
        handleKeyDown s key = handleArrow s ArrowRight) ∧
     (key = "m"%string ∨ key = "M"%string →
        handleKeyDown s key = toggleMemoMode s)) ∧
  (isDigitKey key = false → key ∉ namedKeys → handleKeyDown s key = s) ∧
  (String.length key = 1 ∨ isDigitKey key = false →
     handleKeyDown s key = s ∨
     ∃ e, validEvent e ∧ handleKeyDown s key = handleEvent s e) ∧
  (isDigitKey key = true → key ∉ namedKeys) ∧
  NoDup namedKeys.
Proof.
  split; [| split; [| split; [| split; [| split]]]].
  - intros Hdone. unfold handleKeyDown. by rewrite Hdone.
  - intros Hlive. repeat split.
    + intros num Hnum ->. unfold handleKeyDown. rewrite Hlive.
      pose proof digit_keys_table as Htab. rewrite Forall_forall in Htab.
      destruct (Htab num) as [-> ->]; [| done].
      apply list_elem_of_In, in_seq. unfold GRID_SIZE. lia.
    + intros Hlen Hdigit. destruct key as [| a [| b k]]; try done.
      destruct (digit_key_char a Hdigit) as (d & Hd & Hkey & _). by exists d.
    + intros [-> | ->]; unfold handleKeyDown; by rewrite Hlive.
    + intros ->. unfold handleKeyDown. by rewrite Hlive.
    + intros ->. unfold handleKeyDown. by rewrite Hlive.
    + intros ->. unfold handleKeyDown. by rewrite Hlive.
    + intros ->. unfold handleKeyDown. by rewrite Hlive.
    + intros [-> | ->]; unfold handleKeyDown; by rewrite Hlive.
  - apply handleKeyDown_other.
  - intros Hkey. unfold handleKeyDown.
    destruct (isComplete s); [by left |].
    destruct (isDigitKey key) eqn:Hdigit.
    + destruct Hkey as [Hlen | ?]; [| done].
      destruct key as [| a [| b k]]; try done.
      destruct (digit_key_char a Hdigit) as (d & Hd & _ & ->).
      right. by exists (NumberInput d).
    + destruct (_ || _); [right; by exists EraseInput |].
      destruct (String.eqb key "ArrowUp");
        [right; by exists (ArrowKey ArrowUp) |].
      destruct (String.eqb key "ArrowDown");
        [right; by exists (ArrowKey ArrowDown) |].
      destruct (String.eqb key "ArrowLeft");
        [right; by exists (ArrowKey ArrowLeft) |].
      destruct (String.eqb key "ArrowRight");
        [right; by exists (ArrowKey ArrowRight) |].
      destruct (_ || _); [right; by exists MemoToggle | by left].
  - intros Hdigit Hin. pose proof named_keys_not_digits as Hnamed.
    rewrite Forall_forall in Hnamed. rewrite (Hnamed key Hin) in Hdigit.
    done.
  - apply (bool_decide_unpack _). vm_compute. done.
Qed.
